(** * audioStore.ts: the audio-graph singleton of the visualizer

    A shallow embedding of [src/stores/audioStore.ts].  The module keeps its
    state in module-level variables and talks to the browser (Web Audio,
    the DOM, the console, a nanostores atom).  The embedding threads a
    [World] through a small state-and-exception monad:

    - [Vars]   the module-level [let]/[const] bindings of the file;
    - [Host]   the objects the browser owns (contexts, audio nodes, their
               connections, media elements, the spectrum the analysers
               currently see);
    - [Env]    the global object ([window]) and what it exposes;
    - a trace of the calls the module makes that somebody else can observe
      (console output, atom updates, node construction, resume requests).

    The browser is not part of the repository; its operations are written
    after the Web Audio and HTML specifications:

    - constructing a context and creating a node succeed and yield fresh
      objects; a new analyser has window size 2048 and reports half its
      window size as its bin count;
    - assigning a window size that is not a power of two in 32..32768, or
      a smoothing constant outside 0..1, throws;
    - [connect] throws across contexts and for an output or input index
      out of range; connecting twice the same ends is one connection;
    - [createMediaElementSource] throws InvalidStateError on an element
      that is already bound to a source node;
    - [getByteFrequencyData] overwrites as many entries of the array as
      there are bins, and never changes its length;
    - [resume] only records the request;
    - a [play] event calls what the element's [onplay] property holds.

    Operations that can throw return [Throws], and [try ... catch] is a
    combinator of the monad.

    The file has three parts: the embedding of the module; the definitions
    the proofs use (the worlds the functions leave behind, the reachable
    worlds and their invariant, concrete worlds); the lemmas, ending with
    one theorem per claim. *)

From Stdlib Require Import ZArith QArith Lia.
From Stdlib.Strings Require Import Byte.
From stdpp Require Import base option list gmap sets strings.

Local Open Scope string_scope.
Local Open Scope list_scope.
Local Open Scope nat_scope.

(** ** Identities of host objects *)

Abbreviation ctx_id := nat.
Abbreviation node_id := nat.
Abbreviation elem_id := positive.

(** ** Host objects *)

Inductive AudioContextState := suspended | running | closed.

Inductive Ctor := StdAudioContext | WebkitAudioContext.

(** [window]: only the two properties the module reads. *)
Record Window := {
  win_AudioContext : option Ctor;
  win_webkitAudioContext : option Ctor;
}.

Record Env := {
  window : option Window;           (* None: [typeof window === 'undefined'] *)
  initialState : AudioContextState; (* the state a new context starts in *)
}.

Inductive NodeKind :=
| AudioDestinationNode
| AnalyserNode (fftSize : Z) (smoothingTimeConstant : Q)
| ChannelSplitterNode (outputs : nat)
| MediaElementAudioSourceNode (mediaElement : elem_id).

Record AudioNode := {
  node_context : ctx_id;
  node_kind : NodeKind;
}.

Definition numberOfOutputs (k : NodeKind) : nat :=
  match k with
  | AudioDestinationNode => 0
  | AnalyserNode _ _ => 1
  | ChannelSplitterNode n => n
  | MediaElementAudioSourceNode _ => 1
  end.

Definition numberOfInputs (k : NodeKind) : nat :=
  match k with
  | MediaElementAudioSourceNode _ => 0
  | _ => 1
  end.

Record AudioContext := {
  state : AudioContextState;
  destination : node_id;
}.

(** What an [onplay] property can hold: a function of some other script, or
    the closure [connectAudioElement] creates (it captures [element]). *)
Inductive Handler :=
| ForeignHandler (tag : nat)
| PlayingHandler (element : elem_id).

Record HTMLMediaElement := {
  el_id : string;                    (* element.id *)
  crossOrigin : option string;       (* null or a string *)
  onplay : option Handler;
  el_source : bool;                  (* already bound to a source node *)
}.

(** One connection [src.connect(dst, output)]. *)
Definition Connection : Type := node_id * nat * node_id.

Abbreviation Uint8Array := (list byte).

Record Host := {
  contexts : gmap ctx_id AudioContext;
  next_context : ctx_id;
  nodes : gmap node_id AudioNode;
  next_node : node_id;
  connections : list Connection;
  elements : elem_id → HTMLMediaElement;
  spectrum : node_id → Uint8Array;   (* what an analyser sees right now *)
}.

(** ** Module-level variables *)

Record Vars := {
  isAudioContextReady : bool;
  audioContext : option ctx_id;
  analyser : option node_id;
  analyserL : option node_id;
  analyserR : option node_id;
  splitter : option node_id;
  dataArray : option Uint8Array;
  dataArrayL : option Uint8Array;
  dataArrayR : option Uint8Array;
  connectedElements : gset elem_id;
}.

(** ** Observable calls *)

Inductive DOMException :=
| InvalidStateError | IndexSizeError | InvalidAccessError
| NotSupportedError | TypeError.

Inductive Event :=
| ConsoleLog (msg : string)
| ConsoleWarn (msg : string) (e : DOMException)
| ConsoleError (msg : string)
| AtomSet (v : bool)
| NewAudioContext (c : ctx_id)
| CreateAnalyser (c : ctx_id) (n : node_id)
| CreateChannelSplitter (c : ctx_id) (n : node_id) (outputs : nat)
| CreateMediaElementSource (c : ctx_id) (el : elem_id) (n : node_id)
| Connect (src : node_id) (output : nat) (dst : node_id)
| ResumeRequest (c : ctx_id)
| ForeignHandlerRan (tag : nat).

Record World := {
  env : Env;
  host : Host;
  vars : Vars;
  trace : list Event;
}.

(** The module as it is right after it is loaded. *)
Definition initial_vars : Vars := {|
  isAudioContextReady := false;
  audioContext := None;
  analyser := None; analyserL := None; analyserR := None;
  splitter := None;
  dataArray := None; dataArrayL := None; dataArrayR := None;
  connectedElements := ∅;
|}.

Definition initial_world (e : Env) (h : Host) : World :=
  {| env := e; host := h; vars := initial_vars; trace := [] |}.

(** ** Record updates *)

Definition with_host (f : Host → Host) (w : World) : World :=
  {| env := env w; host := f (host w); vars := vars w; trace := trace w |}.

Definition with_vars (f : Vars → Vars) (w : World) : World :=
  {| env := env w; host := host w; vars := f (vars w); trace := trace w |}.

Definition emit (ev : Event) (w : World) : World :=
  {| env := env w; host := host w; vars := vars w; trace := trace w ++ [ev] |}.

Definition set_contexts (v : gmap ctx_id AudioContext) (n : ctx_id) (h : Host) : Host :=
  {| contexts := v; next_context := n; nodes := nodes h; next_node := next_node h;
     connections := connections h; elements := elements h; spectrum := spectrum h |}.

Definition set_nodes (v : gmap node_id AudioNode) (n : node_id) (h : Host) : Host :=
  {| contexts := contexts h; next_context := next_context h; nodes := v; next_node := n;
     connections := connections h; elements := elements h; spectrum := spectrum h |}.

Definition set_connections (v : list Connection) (h : Host) : Host :=
  {| contexts := contexts h; next_context := next_context h; nodes := nodes h;
     next_node := next_node h; connections := v; elements := elements h;
     spectrum := spectrum h |}.

Definition set_elements (v : elem_id → HTMLMediaElement) (h : Host) : Host :=
  {| contexts := contexts h; next_context := next_context h; nodes := nodes h;
     next_node := next_node h; connections := connections h; elements := v;
     spectrum := spectrum h |}.

Definition set_isAudioContextReady (v : bool) (m : Vars) : Vars :=
  {| isAudioContextReady := v; audioContext := audioContext m; analyser := analyser m;
     analyserL := analyserL m; analyserR := analyserR m; splitter := splitter m;
     dataArray := dataArray m; dataArrayL := dataArrayL m; dataArrayR := dataArrayR m;
     connectedElements := connectedElements m |}.

Definition set_audioContext (v : option ctx_id) (m : Vars) : Vars :=
  {| isAudioContextReady := isAudioContextReady m; audioContext := v; analyser := analyser m;
     analyserL := analyserL m; analyserR := analyserR m; splitter := splitter m;
     dataArray := dataArray m; dataArrayL := dataArrayL m; dataArrayR := dataArrayR m;
     connectedElements := connectedElements m |}.

Definition set_analyser (v : option node_id) (m : Vars) : Vars :=
  {| isAudioContextReady := isAudioContextReady m; audioContext := audioContext m; analyser := v;
     analyserL := analyserL m; analyserR := analyserR m; splitter := splitter m;
     dataArray := dataArray m; dataArrayL := dataArrayL m; dataArrayR := dataArrayR m;
     connectedElements := connectedElements m |}.

Definition set_analyserL (v : option node_id) (m : Vars) : Vars :=
  {| isAudioContextReady := isAudioContextReady m; audioContext := audioContext m;
     analyser := analyser m; analyserL := v; analyserR := analyserR m; splitter := splitter m;
     dataArray := dataArray m; dataArrayL := dataArrayL m; dataArrayR := dataArrayR m;
     connectedElements := connectedElements m |}.

Definition set_analyserR (v : option node_id) (m : Vars) : Vars :=
  {| isAudioContextReady := isAudioContextReady m; audioContext := audioContext m;
     analyser := analyser m; analyserL := analyserL m; analyserR := v; splitter := splitter m;
     dataArray := dataArray m; dataArrayL := dataArrayL m; dataArrayR := dataArrayR m;
     connectedElements := connectedElements m |}.

Definition set_splitter (v : option node_id) (m : Vars) : Vars :=
  {| isAudioContextReady := isAudioContextReady m; audioContext := audioContext m;
     analyser := analyser m; analyserL := analyserL m; analyserR := analyserR m; splitter := v;
     dataArray := dataArray m; dataArrayL := dataArrayL m; dataArrayR := dataArrayR m;
     connectedElements := connectedElements m |}.

Definition set_dataArray (v : option Uint8Array) (m : Vars) : Vars :=
  {| isAudioContextReady := isAudioContextReady m; audioContext := audioContext m;
     analyser := analyser m; analyserL := analyserL m; analyserR := analyserR m;
     splitter := splitter m;
     dataArray := v; dataArrayL := dataArrayL m; dataArrayR := dataArrayR m;
     connectedElements := connectedElements m |}.

Definition set_dataArrayL (v : option Uint8Array) (m : Vars) : Vars :=
  {| isAudioContextReady := isAudioContextReady m; audioContext := audioContext m;
     analyser := analyser m; analyserL := analyserL m; analyserR := analyserR m;
     splitter := splitter m;
     dataArray := dataArray m; dataArrayL := v; dataArrayR := dataArrayR m;
     connectedElements := connectedElements m |}.

Definition set_dataArrayR (v : option Uint8Array) (m : Vars) : Vars :=
  {| isAudioContextReady := isAudioContextReady m; audioContext := audioContext m;
     analyser := analyser m; analyserL := analyserL m; analyserR := analyserR m;
     splitter := splitter m;
     dataArray := dataArray m; dataArrayL := dataArrayL m; dataArrayR := v;
     connectedElements := connectedElements m |}.

Definition set_connectedElements (v : gset elem_id) (m : Vars) : Vars :=
  {| isAudioContextReady := isAudioContextReady m; audioContext := audioContext m;
     analyser := analyser m; analyserL := analyserL m; analyserR := analyserR m;
     splitter := splitter m;
     dataArray := dataArray m; dataArrayL := dataArrayL m; dataArrayR := dataArrayR m;
     connectedElements := v |}.

(** ** The monad: state plus exceptions *)

Inductive Outcome (A : Type) :=
| Returns (a : A)
| Throws (e : DOMException).
Arguments Returns {A} a.
Arguments Throws {A} e.

Definition JS (A : Type) : Type := World → Outcome A * World.

Module JSMonad.

Definition ret {A} (a : A) : JS A := λ w, (Returns a, w).

Definition bind {A B} (m : JS A) (k : A → JS B) : JS B :=
  λ w, match m w with
       | (Returns a, w') => k a w'
       | (Throws e, w') => (Throws e, w')
       end.

Definition throw {A} (e : DOMException) : JS A := λ w, (Throws e, w).

(** [try { body } catch (e) { handler e }] *)
Definition try_catch (body : JS unit) (handler : DOMException → JS unit) : JS unit :=
  λ w, match body w with
       | (Returns tt, w') => (Returns tt, w')
       | (Throws e, w') => handler e w'
       end.

Definition load {A} (f : Vars → A) : JS A := λ w, (Returns (f (vars w)), w).
Definition store (f : Vars → Vars) : JS unit := λ w, (Returns tt, with_vars f w).
Definition observe (ev : Event) : JS unit := λ w, (Returns tt, emit ev w).

End JSMonad.
Import JSMonad.

Declare Scope js_scope.
Delimit Scope js_scope with js.
Notation "'let*' x ':=' m 'in' k" := (bind m (λ x, k))
  (at level 10, x name, m at level 100, k at level 200) : js_scope.
Notation "m ';;' k" := (bind m (λ _, k))
  (at level 100, k at level 200, right associativity) : js_scope.
Local Open Scope js_scope.

(** ** JavaScript values the module computes with *)

(** [a || b] on values that are either an object or undefined. *)
Definition js_or {A} (a b : option A) : option A :=
  match a with Some x => Some x | None => b end.

(** Truthiness of a [string | null]: null and the empty string are falsy. *)
Definition truthy_string (s : option string) : bool :=
  match s with
  | None => false
  | Some s => negb (String.eqb s "")
  end.

(** A JavaScript number as far as this module produces one.  The sums are
    integers below 2^53 and, for the buffers the module allocates, the
    divisor is 256, so the quotients are exact in binary64 and a reduced
    fraction denotes them. *)
Inductive number :=
| Num (q : Q)
| NaN
| Infinity.

Definition byte_val (b : byte) : Z := Z.of_N (Byte.to_N b).

(** [sum / length] for a non-negative integer [sum].  The fraction is the
    exact quotient: it is the number JavaScript computes where binary64
    holds that quotient (a zero divisor, the 256 bins of the module's
    buffers, a divisor that divides the sum), and only there; elsewhere
    JavaScript rounds (1 / 3 is not a third).  The theorems on averages are
    stated at such arguments. *)
Definition js_div (sum : Z) (len : nat) : number :=
  match len with
  | O => if (sum =? 0)%Z then NaN else Infinity
  | S _ => Num (Qred (Qmake sum (Pos.of_nat len)))
  end.

Record StereoData := { left : number; right : number }.

(** [new Uint8Array(n)]: [n] zero bytes. *)
Definition Uint8Array_new (n : Z) : Uint8Array := replicate (Z.to_nat n) x00.
Arguments Uint8Array_new : simpl never.

(** ** Host operations (Web Audio, DOM, console, nanostores) *)

Module WebAudio.

Definition typeof_window : JS (option Window) := λ w, (Returns (window (env w)), w).

(** [new AudioCtor()]: a fresh context with its destination node. *)
Definition construct (ctor : Ctor) : JS ctx_id := λ w,
  let h := host w in
  let c := next_context h in
  let d := next_node h in
  let h1 := set_nodes (<[d := {| node_context := c; node_kind := AudioDestinationNode |}]> (nodes h))
                      (S d) h in
  let h2 := set_contexts (<[c := {| state := initialState (env w); destination := d |}]> (contexts h))
                         (S c) h1 in
  (Returns c, emit (NewAudioContext c) (with_host (λ _, h2) w)).

Definition alloc_node (c : ctx_id) (k : NodeKind) (h : Host) : Host :=
  set_nodes (<[next_node h := {| node_context := c; node_kind := k |}]> (nodes h))
            (S (next_node h)) h.

(** [ctx.createAnalyser()]: defaults fftSize 2048, smoothing 0.8. *)
Definition createAnalyser (c : ctx_id) : JS node_id := λ w,
  let n := next_node (host w) in
  (Returns n,
   emit (CreateAnalyser c n) (with_host (alloc_node c (AnalyserNode 2048 (Qmake 4 5))) w)).

Definition valid_fftSize (v : Z) : bool :=
  bool_decide (v ∈ [32; 64; 128; 256; 512; 1024; 2048; 4096; 8192; 16384; 32768]%Z).

(** [node.fftSize = v]: IndexSizeError unless a power of two in 32..32768. *)
Definition set_fftSize (n : node_id) (v : Z) : JS unit := λ w,
  match nodes (host w) !! n with
  | Some {| node_context := c; node_kind := AnalyserNode _ s |} =>
      if valid_fftSize v
      then (Returns tt,
            with_host (λ h, set_nodes (<[n := {| node_context := c; node_kind := AnalyserNode v s |}]> (nodes h))
                                      (next_node h) h) w)
      else (Throws IndexSizeError, w)
  | _ => (Throws TypeError, w)
  end.

Definition valid_smoothing (s : Q) : bool := Qle_bool 0 s && Qle_bool s 1.

(** [node.smoothingTimeConstant = s]: IndexSizeError outside [0, 1]. *)
Definition set_smoothingTimeConstant (n : node_id) (s : Q) : JS unit := λ w,
  match nodes (host w) !! n with
  | Some {| node_context := c; node_kind := AnalyserNode f _ |} =>
      if valid_smoothing s
      then (Returns tt,
            with_host (λ h, set_nodes (<[n := {| node_context := c; node_kind := AnalyserNode f s |}]> (nodes h))
                                      (next_node h) h) w)
      else (Throws IndexSizeError, w)
  | _ => (Throws TypeError, w)
  end.

Definition binCount (h : Host) (n : node_id) : option Z :=
  match nodes h !! n with
  | Some {| node_kind := AnalyserNode f _ |} => Some (f / 2)%Z
  | _ => None
  end.

(** [node.frequencyBinCount]: half the window size. *)
Definition frequencyBinCount (n : node_id) : JS Z := λ w,
  match binCount (host w) n with
  | Some b => (Returns b, w)
  | None => (Throws TypeError, w)
  end.

(** [ctx.createChannelSplitter(outputs)]: 1..32 outputs. *)
Definition createChannelSplitter (c : ctx_id) (outputs : nat) : JS node_id := λ w,
  if bool_decide (1 ≤ outputs ≤ 32)%nat then
    let n := next_node (host w) in
    (Returns n,
     emit (CreateChannelSplitter c n outputs)
          (with_host (alloc_node c (ChannelSplitterNode outputs)) w))
  else (Throws IndexSizeError, w).

(** A connection that already exists is not added a second time. *)
Definition add_connection (e : Connection) (l : list Connection) : list Connection :=
  if bool_decide (e ∈ l) then l else l ++ [e].

(** [src.connect(dst, output)], input 0. *)
Definition connect (src dst : node_id) (output : nat) : JS unit := λ w,
  match nodes (host w) !! src, nodes (host w) !! dst with
  | Some s, Some d =>
      if negb (bool_decide (node_context s = node_context d))
      then (Throws InvalidAccessError, w)
      else if negb (bool_decide (output < numberOfOutputs (node_kind s))%nat)
              || negb (bool_decide (0 < numberOfInputs (node_kind d))%nat)
      then (Throws IndexSizeError, w)
      else (Returns tt,
            emit (Connect src output dst)
                 (with_host (λ h, set_connections (add_connection (src, output, dst) (connections h)) h) w))
  | _, _ => (Throws TypeError, w)
  end.

Definition with_crossOrigin (v : option string) (e : HTMLMediaElement) : HTMLMediaElement :=
  {| el_id := el_id e; crossOrigin := v; onplay := onplay e; el_source := el_source e |}.

Definition with_onplay (v : option Handler) (e : HTMLMediaElement) : HTMLMediaElement :=
  {| el_id := el_id e; crossOrigin := crossOrigin e; onplay := v; el_source := el_source e |}.

Definition with_source (v : bool) (e : HTMLMediaElement) : HTMLMediaElement :=
  {| el_id := el_id e; crossOrigin := crossOrigin e; onplay := onplay e; el_source := v |}.

Definition update_element (el : elem_id) (f : HTMLMediaElement → HTMLMediaElement)
    (h : Host) : Host :=
  set_elements (λ x, if bool_decide (x = el) then f (elements h x) else elements h x) h.

Definition element_prop {A} (el : elem_id) (f : HTMLMediaElement → A) : JS A :=
  λ w, (Returns (f (elements (host w) el)), w).

Definition set_crossOrigin (el : elem_id) (v : string) : JS unit :=
  λ w, (Returns tt, with_host (update_element el (with_crossOrigin (Some v))) w).

Definition set_onplay (el : elem_id) (v : Handler) : JS unit :=
  λ w, (Returns tt, with_host (update_element el (with_onplay (Some v))) w).

(** [ctx.createMediaElementSource(el)]: an element can be bound to a
    source node once; a second attempt throws InvalidStateError. *)
Definition createMediaElementSource (c : ctx_id) (el : elem_id) : JS node_id := λ w,
  if el_source (elements (host w) el) then (Throws InvalidStateError, w)
  else
    let n := next_node (host w) in
    (Returns n,
     emit (CreateMediaElementSource c el n)
          (with_host (λ h, update_element el (with_source true)
                             (alloc_node c (MediaElementAudioSourceNode el) h)) w)).

Definition ctx_destination (c : ctx_id) : JS node_id := λ w,
  match contexts (host w) !! c with
  | Some x => (Returns (destination x), w)
  | None => (Throws TypeError, w)
  end.

Definition ctx_state (c : ctx_id) : JS AudioContextState := λ w,
  match contexts (host w) !! c with
  | Some x => (Returns (state x), w)
  | None => (Throws TypeError, w)
  end.

(** [ctx.resume()]: the request is recorded; the state changes later, if
    at all, and nobody waits for it. *)
Definition resume (c : ctx_id) : JS unit := observe (ResumeRequest c).

(** The analyser's current data: exactly [frequencyBinCount] bytes. *)
Definition frequency_data (h : Host) (n : node_id) : Uint8Array :=
  match binCount h n with
  | Some b => resize (Z.to_nat b) x00 (spectrum h n)
  | None => []
  end.

(** Copying into [array]: bins beyond the array are dropped, array
    entries beyond the bins are left as they are. *)
Definition fill (data array : Uint8Array) : Uint8Array :=
  take (length array) data ++ drop (length data) array.

(** [node.getByteFrequencyData(array)], returning the array's new content. *)
Definition getByteFrequencyData (n : node_id) (array : Uint8Array) : JS Uint8Array :=
  λ w, (Returns (fill (frequency_data (host w) n) array), w).

Definition console_log (msg : string) : JS unit := observe (ConsoleLog msg).
Definition console_warn (msg : string) (e : DOMException) : JS unit :=
  observe (ConsoleWarn msg e).
Definition console_error (msg : string) : JS unit := observe (ConsoleError msg).

(** [atom.set(v)] of nanostores. *)
Definition atom_set (v : bool) : JS unit :=
  store (set_isAudioContextReady v);; observe (AtomSet v).

End WebAudio.
Import WebAudio.

(** ** The module *)

(** [window.AudioContext || (window as any).webkitAudioContext] *)
Definition AudioCtor (win : Window) : option Ctor :=
  js_or (win_AudioContext win) (win_webkitAudioContext win).

Definition initAudioContext : JS (option ctx_id) :=
  let* win := typeof_window in
  match win with
  | None => ret None
  | Some win =>
    let* current := load audioContext in
    match current with
    | Some _ => load audioContext
    | None =>
      match AudioCtor win with
      | None =>
          console_error "Web Audio API is not supported in this browser";;
          ret None
      | Some ctor =>
          let* ctx := construct ctor in
          store (set_audioContext (Some ctx));;
          (* Main Analyser (Mono/Mix) *)
          let* a := createAnalyser ctx in
          store (set_analyser (Some a));;
          set_fftSize a 512;;
          set_smoothingTimeConstant a (Qmake 4 5);;
          let* bins := frequencyBinCount a in
          store (set_dataArray (Some (Uint8Array_new bins)));;
          (* Stereo Analysers *)
          let* l := createAnalyser ctx in
          store (set_analyserL (Some l));;
          set_fftSize l 512;;
          set_smoothingTimeConstant l (Qmake 4 5);;
          let* binsL := frequencyBinCount l in
          store (set_dataArrayL (Some (Uint8Array_new binsL)));;
          let* r := createAnalyser ctx in
          store (set_analyserR (Some r));;
          set_fftSize r 512;;
          set_smoothingTimeConstant r (Qmake 4 5);;
          let* binsR := frequencyBinCount r in
          store (set_dataArrayR (Some (Uint8Array_new binsR)));;
          (* Splitter *)
          let* s := createChannelSplitter ctx 2 in
          store (set_splitter (Some s));;
          connect s l 0;;
          connect s r 1;;
          atom_set true;;
          console_log "AudioContext initialized (Stereo Mode)";;
          load audioContext
      end
    end
  end.

Definition resumeAudioContext : JS unit :=
  let* current := load audioContext in
  match current with
  | Some ctx =>
      let* st := ctx_state ctx in
      match st with
      | suspended => resume ctx
      | _ => ret tt
      end
  | None => ret tt
  end.

(** The body of the [try] block of [connectAudioElement]; [ctx], [a] and
    [s] are the values of [ctx], [analyser] and [splitter] the guard above
    it has found non-null. *)
Definition wiring (ctx : ctx_id) (a s : node_id) (element : elem_id) : JS unit :=
  let* co := element_prop element crossOrigin in
  (if negb (truthy_string co) then set_crossOrigin element "anonymous" else ret tt);;
  let* source := createMediaElementSource ctx element in
  (* 1. Connect to Main Analyser *)
  connect source a 0;;
  (* 2. Connect to Splitter *)
  connect source s 0;;
  (* 3. Connect to Output *)
  let* out := ctx_destination ctx in
  connect a out 0;;
  store (λ m, set_connectedElements ({[element]} ∪ connectedElements m) m);;
  let* name := element_prop element el_id in
  console_log ("✅ Audio element connected (Stereo): " +:+ name);;
  set_onplay element (PlayingHandler element).

Definition connectAudioElement (element : elem_id) : JS unit :=
  let* ctx := initAudioContext in
  let* a := load analyser in
  let* s := load splitter in
  match ctx, a, s with
  | Some ctx, Some a, Some s =>
      let* known := load (λ m, bool_decide (element ∈ connectedElements m)) in
      if known then ret tt
      else
        try_catch
          (wiring ctx a s element)
          (λ e, console_warn "❌ Error connecting audio element:" e)
  | _, _, _ => ret tt
  end.

Definition getAudioData : JS Uint8Array :=
  let* a := load analyser in
  let* d := load dataArray in
  match a, d with
  | Some a, Some d =>
      let* d' := getByteFrequencyData a d in
      store (set_dataArray (Some d'));;
      ret d'
  | _, _ => ret (Uint8Array_new 0)
  end.

(** [array.reduce((a, b) => a + b, 0)] *)
Definition reduce_add (array : Uint8Array) : Z :=
  fold_left (λ a b, a + byte_val b)%Z array 0%Z.

Definition getStereoData : JS StereoData :=
  let* l := load analyserL in
  let* r := load analyserR in
  let* dl := load dataArrayL in
  let* dr := load dataArrayR in
  match l, r, dl, dr with
  | Some l, Some r, Some dl, Some dr =>
      let* dl' := getByteFrequencyData l dl in
      store (set_dataArrayL (Some dl'));;
      let* dr' := getByteFrequencyData r dr in
      store (set_dataArrayR (Some dr'));;
      let sumL := reduce_add dl' in
      let sumR := reduce_add dr' in
      let avgL := js_div sumL (length dl') in
      let avgR := js_div sumR (length dr') in
      ret {| left := avgL; right := avgR |}
  | _, _, _, _ => ret {| left := Num 0; right := Num 0 |}
  end.

(** [for (let i = 0; i < data.length; i++) sum += data[i]]; every index
    the loop reads is below the length. *)
Definition sum_loop (data : Uint8Array) : Z :=
  fold_left (λ sum i, sum + byte_val (nth i data x00))%Z (seq 0 (length data)) 0%Z.

Definition getAverageVolume : JS number :=
  let* data := getAudioData in
  if (length data =? 0)%nat then ret (Num 0)
  else
    let sum := sum_loop data in
    ret (js_div sum (length data)).

(** The browser fires [play] on an element: its [onplay] property, if set,
    is called.  The closure installed by [connectAudioElement] logs and
    resumes the context. *)
Definition run_handler (h : Handler) : JS unit :=
  match h with
  | ForeignHandler tag => observe (ForeignHandlerRan tag)
  | PlayingHandler element =>
      let* name := element_prop element el_id in
      console_log ("▶️ Audio element playing: " +:+ name);;
      resumeAudioContext
  end.

Definition fire_play (el : elem_id) : JS unit :=
  let* h := element_prop el onplay in
  match h with
  | Some h => run_handler h
  | None => ret tt
  end.

(** * Definitions used by the proofs *)

Ltac lookups :=
  repeat first [ rewrite lookup_insert_eq | rewrite lookup_insert_ne by lia ].

(** ** The graph [initAudioContext] builds *)

Definition analyser_512 (c : ctx_id) : AudioNode :=
  {| node_context := c; node_kind := AnalyserNode 512 (Qmake 4 5) |}.

Definition destination_of (c : ctx_id) : AudioNode :=
  {| node_context := c; node_kind := AudioDestinationNode |}.

Definition splitter_2 (c : ctx_id) : AudioNode :=
  {| node_context := c; node_kind := ChannelSplitterNode 2 |}.

(** The world a first successful [initAudioContext] leaves behind, written
    out.  With [c] the new context and [d] the first free node identity:
    [d] is the destination, [d+1], [d+2], [d+3] the main, left and right
    analysers, [d+4] the splitter. *)
Definition built_host (e : Env) (h : Host) : Host :=
  let c := next_context h in
  let d := next_node h in
  {| contexts := <[c := {| state := initialState e; destination := d |}]> (contexts h);
     next_context := S c;
     nodes := <[S (S (S (S d))) := splitter_2 c]>
                (<[S (S (S d)) := analyser_512 c]>
                   (<[S (S d) := analyser_512 c]>
                      (<[S d := analyser_512 c]>
                         (<[d := destination_of c]> (nodes h)))));
     next_node := S (S (S (S (S d))));
     connections :=
       add_connection (S (S (S (S d))), 1, S (S (S d)))
         (add_connection (S (S (S (S d))), 0, S (S d)) (connections h));
     elements := elements h;
     spectrum := spectrum h |}.

Definition built_vars (h : Host) (m : Vars) : Vars :=
  let d := next_node h in
  {| isAudioContextReady := true;
     audioContext := Some (next_context h);
     analyser := Some (S d);
     analyserL := Some (S (S d));
     analyserR := Some (S (S (S d)));
     splitter := Some (S (S (S (S d))));
     dataArray := Some (Uint8Array_new 256);
     dataArrayL := Some (Uint8Array_new 256);
     dataArrayR := Some (Uint8Array_new 256);
     connectedElements := connectedElements m |}.

Definition built_trace (h : Host) : list Event :=
  let c := next_context h in
  let d := next_node h in
  [ NewAudioContext c;
    CreateAnalyser c (S d);
    CreateAnalyser c (S (S d));
    CreateAnalyser c (S (S (S d)));
    CreateChannelSplitter c (S (S (S (S d)))) 2;
    Connect (S (S (S (S d)))) 0 (S (S d));
    Connect (S (S (S (S d)))) 1 (S (S (S d)));
    AtomSet true;
    ConsoleLog "AudioContext initialized (Stereo Mode)" ].

Definition built (w : World) : World :=
  {| env := env w;
     host := built_host (env w) (host w);
     vars := built_vars (host w) (vars w);
     trace := trace w ++ built_trace (host w) |}.

(** ** Reachable worlds and their invariant *)

(** What the rest of the page, and time, can do to the host between two
    calls: contexts change state, other scripts create nodes and
    connections of their own and touch the media elements, the spectrum
    moves.  Nodes that exist keep their identity and configuration (the
    module does not hand its nodes out), contexts keep their destination. *)
Record host_step (h h' : Host) : Prop := {
  hs_next : next_node h ≤ next_node h';
  hs_nodes : ∀ n, n < next_node h → nodes h' !! n = nodes h !! n;
  hs_contexts : ∀ c x, contexts h !! c = Some x →
                ∃ x', contexts h' !! c = Some x' ∧ destination x' = destination x;
}.

Inductive Call :=
| call_initAudioContext
| call_connectAudioElement (element : elem_id)
| call_getAudioData
| call_getStereoData
| call_getAverageVolume
| call_resumeAudioContext
| event_play (element : elem_id).

(** The world after a call (whatever it returned). *)
Definition run (c : Call) (w : World) : World :=
  match c with
  | call_initAudioContext => snd (initAudioContext w)
  | call_connectAudioElement el => snd (connectAudioElement el w)
  | call_getAudioData => snd (getAudioData w)
  | call_getStereoData => snd (getStereoData w)
  | call_getAverageVolume => snd (getAverageVolume w)
  | call_resumeAudioContext => snd (resumeAudioContext w)
  | event_play el => snd (fire_play el w)
  end.

(** Worlds reachable from a freshly loaded module: by calls of the exported
    functions, by [play] events, by the host moving on, and by a caller
    writing into the array [getAudioData] handed it (a typed array cannot
    be resized, so the length stays).  Other modules read the exported
    ready flag; only this one sets it. *)
Inductive Reachable : World → Prop :=
| reach_load e h : Reachable (initial_world e h)
| reach_call c w : Reachable w → Reachable (run c w)
| reach_host h' w : Reachable w → host_step (host w) h' → Reachable (with_host (λ _, h') w)
| reach_write d d' w :
    Reachable w → dataArray (vars w) = Some d → length d' = length d →
    Reachable (with_vars (set_dataArray (Some d')) w).

(** The graph the variables point to, once [audioContext] is [c]. *)
Record GraphInv (e : Env) (h : Host) (m : Vars) (c : ctx_id) : Prop := {
  gi_ctor : ∃ win ctor, window e = Some win ∧ AudioCtor win = Some ctor;
  gi_ready : isAudioContextReady m = true;
  gi_ctx : ∃ x, contexts h !! c = Some x ∧ destination x < next_node h
                ∧ nodes h !! destination x = Some (destination_of c);
  gi_analyser : ∃ a, analyser m = Some a ∧ a < next_node h
                     ∧ nodes h !! a = Some (analyser_512 c);
  gi_analyserL : ∃ a, analyserL m = Some a ∧ a < next_node h
                      ∧ nodes h !! a = Some (analyser_512 c);
  gi_analyserR : ∃ a, analyserR m = Some a ∧ a < next_node h
                      ∧ nodes h !! a = Some (analyser_512 c);
  gi_splitter : ∃ s, splitter m = Some s ∧ s < next_node h
                     ∧ nodes h !! s = Some (splitter_2 c);
  gi_dataArray : ∃ d, dataArray m = Some d ∧ length d = 256;
  gi_dataArrayL : ∃ d, dataArrayL m = Some d ∧ length d = 256;
  gi_dataArrayR : ∃ d, dataArrayR m = Some d ∧ length d = 256;
}.

Definition Inv (w : World) : Prop :=
  match audioContext (vars w) with
  | None => vars w = initial_vars
  | Some c => GraphInv (env w) (host w) (vars w) c
  end.

(** Two valuations of the variables that agree on the graph: same
    references, arrays of the same lengths.  The registry may differ. *)
Record same_graph (m m' : Vars) : Prop := {
  sg_ready : isAudioContextReady m' = isAudioContextReady m;
  sg_audioContext : audioContext m' = audioContext m;
  sg_analyser : analyser m' = analyser m;
  sg_analyserL : analyserL m' = analyserL m;
  sg_analyserR : analyserR m' = analyserR m;
  sg_splitter : splitter m' = splitter m;
  sg_dataArray : length <$> dataArray m' = length <$> dataArray m;
  sg_dataArrayL : length <$> dataArrayL m' = length <$> dataArrayL m;
  sg_dataArrayR : length <$> dataArrayR m' = length <$> dataArrayR m;
}.

(** ** Worlds the other functions leave behind *)

Definition stereo_world (l r : node_id) (dl dr : Uint8Array) (w : World) : World :=
  with_vars (set_dataArrayR (Some (fill (frequency_data (host w) r) dr)))
    (with_vars (set_dataArrayL (Some (fill (frequency_data (host w) l) dl))) w).

Definition playing_message (el : elem_id) (w : World) : string :=
  "▶️ Audio element playing: " +:+ el_id (elements (host w) el).

(** [if (!element.crossOrigin) element.crossOrigin = "anonymous"] *)
Definition default_crossOrigin (el : elem_id) (h : Host) : Host :=
  if truthy_string (crossOrigin (elements h el)) then h
  else update_element el (with_crossOrigin (Some "anonymous")) h.

(** The statements of the [try] block after the crossOrigin default. *)
Definition wiring_tail (ctx : ctx_id) (a s : node_id) (element : elem_id) : JS unit :=
  let* source := createMediaElementSource ctx element in
  connect source a 0;;
  connect source s 0;;
  let* out := ctx_destination ctx in
  connect a out 0;;
  store (λ m, set_connectedElements ({[element]} ∪ connectedElements m) m);;
  let* name := element_prop element el_id in
  console_log ("✅ Audio element connected (Stereo): " +:+ name);;
  set_onplay element (PlayingHandler element).

(** The host after the remaining statements have all succeeded. *)
Definition wired_host (c : ctx_id) (a s out : node_id) (el : elem_id) (h : Host) : Host :=
  let n := next_node h in
  update_element el (with_onplay (Some (PlayingHandler el)))
    (set_connections
       (add_connection (a, 0, out)
          (add_connection (n, 0, s)
             (add_connection (n, 0, a) (connections h))))
       (update_element el (with_source true)
          (alloc_node c (MediaElementAudioSourceNode el) h))).

Definition wired_trace (c : ctx_id) (a s out : node_id) (el : elem_id) (h : Host) : list Event :=
  let n := next_node h in
  [ CreateMediaElementSource c el n;
    Connect n 0 a;
    Connect n 0 s;
    Connect a 0 out;
    ConsoleLog ("✅ Audio element connected (Stereo): " +:+ el_id (elements h el)) ].

Definition wired_from (c : ctx_id) (a s out : node_id) (el : elem_id) (w : World) : World :=
  {| env := env w;
     host := wired_host c a s out el (host w);
     vars := set_connectedElements ({[el]} ∪ connectedElements (vars w)) (vars w);
     trace := trace w ++ wired_trace c a s out el (host w) |}.

(** The world after a successful wiring of [el]. *)
Definition wired (c : ctx_id) (a s out : node_id) (el : elem_id) (w : World) : World :=
  wired_from c a s out el (with_host (default_crossOrigin el) w).

Definition unsupported_message : string := "Web Audio API is not supported in this browser".
Definition wiring_warning : string := "❌ Error connecting audio element:".

(** The four ways [initAudioContext] can go. *)
Inductive init_case (w : World) : Outcome (option ctx_id) * World → Prop :=
| init_no_window :
    window (env w) = None →
    init_case w (Returns None, w)
| init_existing win c :
    window (env w) = Some win → audioContext (vars w) = Some c →
    init_case w (Returns (Some c), w)
| init_unsupported win :
    window (env w) = Some win → audioContext (vars w) = None → AudioCtor win = None →
    init_case w (Returns None, emit (ConsoleError unsupported_message) w)
| init_fresh win ctor :
    window (env w) = Some win → audioContext (vars w) = None → AudioCtor win = Some ctor →
    init_case w (Returns (Some (next_context (host w))), built w).

(** The world after a wiring that failed on an element bound elsewhere. *)
Definition refused (el : elem_id) (w : World) : World :=
  emit (ConsoleWarn wiring_warning InvalidStateError) (with_host (default_crossOrigin el) w).

(** The ways [connectAudioElement] can go from a world [w1] in which the
    graph has been looked for. *)
Inductive connect_case (el : elem_id) (w1 : World) : World → Prop :=
| connect_no_graph :
    audioContext (vars w1) = None →
    connect_case el w1 w1
| connect_known c :
    audioContext (vars w1) = Some c → el ∈ connectedElements (vars w1) →
    connect_case el w1 w1
| connect_refused c a s :
    audioContext (vars w1) = Some c →
    analyser (vars w1) = Some a → splitter (vars w1) = Some s →
    el ∉ connectedElements (vars w1) →
    el_source (elements (host w1) el) = true →
    wiring c a s el w1 = (Throws InvalidStateError, with_host (default_crossOrigin el) w1) →
    connect_case el w1 (refused el w1)
| connect_wired c a s x :
    audioContext (vars w1) = Some c →
    analyser (vars w1) = Some a → splitter (vars w1) = Some s →
    contexts (host w1) !! c = Some x →
    el ∉ connectedElements (vars w1) →
    el_source (elements (host w1) el) = false →
    wiring c a s el w1 = (Returns tt, wired c a s (destination x) el w1) →
    connect_case el w1 (wired c a s (destination x) el w1).

(** ** Vocabulary of the claims *)

(** The condition of [resumeAudioContext]: the context exists and the
    host reports it suspended. *)
Definition suspended_context (w : World) : option ctx_id :=
  match audioContext (vars w) with
  | Some c =>
      match contexts (host w) !! c with
      | Some x => match state x with suspended => Some c | _ => None end
      | None => None
      end
  | None => None
  end.

(** The arithmetic mean as the specification words it: the sum of the
    bins divided by the number of bins. *)
Definition sum_bins (data : list byte) : Z :=
  foldr (λ b acc, byte_val b + acc)%Z 0%Z data.

Definition arithmetic_mean (data : list byte) : Q :=
  (inject_Z (sum_bins data) / inject_Z (Z.of_nat (length data)))%Q.

(** The statements of [getAverageVolume] after [const data = getAudioData()]. *)
Definition average (data : Uint8Array) : number :=
  if (length data =? 0)%nat then Num 0
  else js_div (sum_loop data) (length data).

Definition count_events (p : Event → bool) (t : list Event) : nat :=
  length (List.filter p t).

Definition is_NewAudioContext (ev : Event) : bool :=
  match ev with NewAudioContext _ => true | _ => false end.

Definition is_CreateAnalyser (ev : Event) : bool :=
  match ev with CreateAnalyser _ _ => true | _ => false end.

Definition is_CreateChannelSplitter (ev : Event) : bool :=
  match ev with CreateChannelSplitter _ _ _ => true | _ => false end.

(** [isAudioContextReady.set(true)] *)
Definition is_ready_set (ev : Event) : bool :=
  match ev with AtomSet true => true | _ => false end.

Definition is_source_of (el : elem_id) (ev : Event) : bool :=
  match ev with
  | CreateMediaElementSource _ el' _ => (el' =? el)%positive
  | _ => false
  end.

Definition is_connected_log (ev : Event) : bool :=
  match ev with
  | ConsoleLog msg => String.prefix "✅ Audio element connected" msg
  | _ => false
  end.

(** The events by which the module builds its graph and raises the flag. *)
Definition is_construction (ev : Event) : bool :=
  is_NewAudioContext ev || is_CreateAnalyser ev || is_CreateChannelSplitter ev
  || is_ready_set ev.

Definition quiet (t : list Event) : Prop :=
  Forall (λ ev, is_construction ev = false) t.

(** A trace along which [n] graphs were built: [n] contexts, [n] splitters,
    [3 n] analysers, and the ready flag set to true [n] times. *)
Record constructed (n : nat) (t : list Event) : Prop := {
  cs_contexts : count_events is_NewAudioContext t = n;
  cs_splitters : count_events is_CreateChannelSplitter t = n;
  cs_analysers : count_events is_CreateAnalyser t = 3 * n;
  cs_ready : count_events is_ready_set t = n;
}.

Definition graphs_built (w : World) : nat :=
  match audioContext (vars w) with Some _ => 1 | None => 0 end.

(** What a call adds to the trace: nothing that builds, unless it is the
    call that builds the graph. *)
Definition extends_trace (w w' : World) : Prop :=
  (audioContext (vars w') = audioContext (vars w)
   ∧ ∃ t, trace w' = trace w ++ t ∧ quiet t)
  ∨ (audioContext (vars w) = None ∧ (∃ c, audioContext (vars w') = Some c)
     ∧ ∃ t, trace w' = (trace w ++ built_trace (host w)) ++ t ∧ quiet t).

Definition init_times (n : nat) (w : World) : World :=
  Nat.iter n (run call_initAudioContext) w.

(** C1 as stated: if the [try] block throws, the call leaves the host and
    the variables as they were before it. *)
Definition wiring_failure_leaves_state_unchanged : Prop :=
  ∀ w el c wi a s e w',
    Reachable w →
    initAudioContext w = (Returns (Some c), wi) →
    analyser (vars wi) = Some a → splitter (vars wi) = Some s →
    el ∉ connectedElements (vars wi) →
    wiring c a s el wi = (Throws e, w') →
    host (run (call_connectAudioElement el) w) = host w
    ∧ vars (run (call_connectAudioElement el) w) = vars w.

(** * Concrete worlds *)

Module Examples.

(** A browser with the standard constructor; contexts start suspended. *)
Definition browser : Env :=
  {| window := Some {| win_AudioContext := Some StdAudioContext;
                       win_webkitAudioContext := None |};
     initialState := suspended |}.

(** A window without Web Audio. *)
Definition old_browser : Env :=
  {| window := Some {| win_AudioContext := None; win_webkitAudioContext := None |};
     initialState := suspended |}.

(** No window at all (server-side rendering). *)
Definition server : Env := {| window := None; initialState := suspended |}.

Definition player : HTMLMediaElement :=
  {| el_id := "player"; crossOrigin := None;
     onplay := Some (ForeignHandler 7); el_source := false |}.

(** An element some other script has already bound to a source node. *)
Definition taken : HTMLMediaElement :=
  {| el_id := "taken"; crossOrigin := None; onplay := None; el_source := true |}.

(** Element 1 is [player], every other element is [taken]; every
    analyser currently sees full-scale bins. *)
Definition page : Host :=
  {| contexts := ∅; next_context := 0; nodes := ∅; next_node := 0;
     connections := [];
     elements := λ el, if (el =? 1)%positive then player else taken;
     spectrum := λ _, replicate 256 xff |}.

Definition loaded : World := initial_world browser page.
Definition ready : World := run call_initAudioContext loaded.
Definition connected : World := run (call_connectAudioElement 1%positive) ready.

End Examples.

(** * Definitions used by the further properties *)

(** Requests that add a source node or a connection to the graph. *)
Definition is_wiring (ev : Event) : bool :=
  match ev with
  | Connect _ _ _ | CreateMediaElementSource _ _ _ => true
  | _ => false
  end.

Definition is_graph_event (ev : Event) : bool :=
  is_construction ev || is_wiring ev || is_connected_log ev.

(** A stretch of trace that neither builds, nor wires, nor reports a
    connection. *)
Definition idle (t : list Event) : Prop :=
  Forall (λ ev, is_graph_event ev = false) t.

(** Every call starts, at most, by looking for the graph ... *)
Inductive init_step (w : World) : World → Prop :=
| init_step_none : init_step w w
| init_step_unsupported win :
    window (env w) = Some win → audioContext (vars w) = None → AudioCtor win = None →
    init_step w (emit (ConsoleError unsupported_message) w)
| init_step_built win ctor :
    window (env w) = Some win → audioContext (vars w) = None → AudioCtor win = Some ctor →
    init_step w (built w).

(** ... and goes on either without touching the graph or as a connection. *)
Inductive rest_step (wi : World) : World → Prop :=
| rest_idle w' t :
    env w' = env wi → host w' = host wi → same_graph (vars wi) (vars w') →
    connectedElements (vars w') = connectedElements (vars wi) →
    trace w' = trace wi ++ t → idle t →
    rest_step wi w'
| rest_connect el w' :
    connect_case el wi w' → rest_step wi w'.

(** The worlds that can follow a given world. *)
Inductive reaches (w : World) : World → Prop :=
| reaches_refl : reaches w w
| reaches_call c w' : reaches w w' → reaches w (run c w')
| reaches_host h' w' :
    reaches w w' → host_step (host w') h' → reaches w (with_host (λ _, h') w')
| reaches_write d d' w' :
    reaches w w' → dataArray (vars w') = Some d → length d' = length d →
    reaches w (with_vars (set_dataArray (Some d')) w').

(** The five nodes of the graph sit at consecutive identities: [d] the
    destination of context [c], then the main, left and right analysers,
    then the splitter. *)
Record layout (d : node_id) (c : ctx_id) (w : World) : Prop := {
  lay_ctx : ∃ x, contexts (host w) !! c = Some x ∧ destination x = d;
  lay_analyser : analyser (vars w) = Some (S d);
  lay_analyserL : analyserL (vars w) = Some (S (S d));
  lay_analyserR : analyserR (vars w) = Some (S (S (S d)));
  lay_splitter : splitter (vars w) = Some (S (S (S (S d))));
  lay_next : S (S (S (S d))) < next_node (host w);
}.

(** The wiring requests the module makes: the two splitter branches, the
    main analyser to the destination, and for each source node created
    after the graph its two connections. *)
Definition wiring_event_ok (c : ctx_id) (d : node_id) (t : list Event) (ev : Event) : Prop :=
  match ev with
  | Connect src o dst =>
      (src = S (S (S (S d))) ∧ o = 0 ∧ dst = S (S d))
      ∨ (src = S (S (S (S d))) ∧ o = 1 ∧ dst = S (S (S d)))
      ∨ (src = S d ∧ o = 0 ∧ dst = d)
      ∨ (S (S (S (S d))) < src ∧ o = 0 ∧ (dst = S d ∨ dst = S (S (S (S d))))
         ∧ ∃ el, CreateMediaElementSource c el src ∈ t)
  | CreateMediaElementSource c' el n => c' = c ∧ S (S (S (S d))) < n
  | _ => True
  end.

Definition WiringInv (w : World) : Prop :=
  match audioContext (vars w) with
  | None => Forall (λ ev, is_wiring ev = false) (trace w)
  | Some c =>
      ∃ d, layout d c w
           ∧ Connect (S (S (S (S d)))) 0 (S (S d)) ∈ trace w
           ∧ Connect (S (S (S (S d)))) 1 (S (S (S d))) ∈ trace w
           ∧ Forall (wiring_event_ok c d (trace w)) (trace w)
  end.

(** The registry against the trace: one source node and one success line
    per registered element, none for the others. *)
Definition Ledger (w : World) : Prop :=
  (∀ el, count_events (is_source_of el) (trace w)
         = if bool_decide (el ∈ connectedElements (vars w)) then 1 else 0)
  ∧ count_events is_connected_log (trace w) = size (connectedElements (vars w)).

(** A number between 0 and 255. *)
Definition in_byte_range (v : number) : Prop :=
  match v with
  | Num q => (0 <= q)%Q ∧ (q <= 255)%Q
  | _ => False
  end.

(** What no step of the module's life undoes: the environment, the graph
    once it is there, the elements registered so far, the trace so far. *)
Definition keeps (w w' : World) : Prop :=
  env w' = env w
  ∧ (is_Some (audioContext (vars w)) → same_graph (vars w) (vars w'))
  ∧ connectedElements (vars w) ⊆ connectedElements (vars w')
  ∧ ∃ t, trace w' = trace w ++ t.

(** A world as the reachable ones, except that its three buffers are empty. *)
Definition emptied (w : World) : World :=
  with_vars (λ m, set_dataArrayR (Some []) (set_dataArrayL (Some []) (set_dataArray (Some []) m))) w.

(** * Lemmas *)

(** ** Records are determined by their fields *)

Lemma World_eq (w w' : World) :
  env w = env w' → host w = host w' → vars w = vars w' → trace w = trace w' → w = w'.
Proof. destruct w, w'; cbn; congruence. Qed.

Lemma Host_eq (h h' : Host) :
  contexts h = contexts h' → next_context h = next_context h' →
  nodes h = nodes h' → next_node h = next_node h' →
  connections h = connections h' → elements h = elements h' →
  spectrum h = spectrum h' → h = h'.
Proof. destruct h, h'; cbn; congruence. Qed.

Lemma Vars_eq (m m' : Vars) :
  isAudioContextReady m = isAudioContextReady m' → audioContext m = audioContext m' →
  analyser m = analyser m' → analyserL m = analyserL m' → analyserR m = analyserR m' →
  splitter m = splitter m' → dataArray m = dataArray m' → dataArrayL m = dataArrayL m' →
  dataArrayR m = dataArrayR m' → connectedElements m = connectedElements m' → m = m'.
Proof. destruct m, m'; cbn; congruence. Qed.


(** ** Equations of [initAudioContext] *)

Lemma valid_fftSize_512 : valid_fftSize 512 = true.
Proof. reflexivity. Qed.

Lemma valid_smoothing_08 : valid_smoothing (Qmake 4 5) = true.
Proof. reflexivity. Qed.

Lemma splitter_outputs_ok : bool_decide (1 ≤ 2 ≤ 32)%nat = true.
Proof. reflexivity. Qed.

(** The four statements that create and configure one analyser, followed by
    the read of its bin count. *)
Lemma analyser_block {A} w c (setv : option node_id → Vars → Vars) (k : node_id → Z → JS A) :
  (let* a := createAnalyser c in
   store (setv (Some a));;
   set_fftSize a 512;;
   set_smoothingTimeConstant a (Qmake 4 5);;
   let* bins := frequencyBinCount a in
   k a bins) w
  = k (next_node (host w)) 256%Z
      {| env := env w;
         host := set_nodes (<[next_node (host w) := analyser_512 c]> (nodes (host w)))
                           (S (next_node (host w))) (host w);
         vars := setv (Some (next_node (host w))) (vars w);
         trace := trace w ++ [CreateAnalyser c (next_node (host w))] |}.
Proof.
  unfold bind, createAnalyser, store, set_fftSize, set_smoothingTimeConstant,
    frequencyBinCount, binCount.
  cbn. rewrite lookup_insert_eq, valid_fftSize_512. cbn.
  rewrite lookup_insert_eq, valid_smoothing_08. cbn.
  rewrite lookup_insert_eq. cbn.
  unfold with_host, with_vars, emit, alloc_node, set_nodes. cbn.
  rewrite !insert_insert_eq. reflexivity.
Qed.

Lemma initAudioContext_no_window w :
  window (env w) = None → initAudioContext w = (Returns None, w).
Proof. intros Hw. unfold initAudioContext, bind, typeof_window. now rewrite Hw. Qed.

Lemma initAudioContext_existing w win c :
  window (env w) = Some win → audioContext (vars w) = Some c →
  initAudioContext w = (Returns (Some c), w).
Proof.
  intros Hw Ha. unfold initAudioContext, bind, typeof_window, load.
  rewrite Hw, Ha. cbn. now rewrite Ha.
Qed.

Lemma initAudioContext_no_ctor w win :
  window (env w) = Some win → audioContext (vars w) = None → AudioCtor win = None →
  initAudioContext w
  = (Returns None, emit (ConsoleError "Web Audio API is not supported in this browser") w).
Proof.
  intros Hw Ha Hc. unfold initAudioContext, bind, typeof_window, load.
  rewrite Hw, Ha, Hc. reflexivity.
Qed.

Lemma initAudioContext_fresh w win ctor :
  window (env w) = Some win → audioContext (vars w) = None → AudioCtor win = Some ctor →
  initAudioContext w = (Returns (Some (next_context (host w))), built w).
Proof.
  intros Hw Ha Hc. unfold initAudioContext.
  unfold bind at 1. unfold typeof_window at 1. rewrite Hw.
  unfold bind at 1. unfold load at 1. rewrite Ha, Hc.
  unfold bind at 1. unfold construct at 1. cbv zeta.
  unfold bind at 1. unfold store at 1. rewrite analyser_block.
  unfold bind at 1. unfold store at 1. rewrite analyser_block.
  unfold bind at 1. unfold store at 1. rewrite analyser_block.
  unfold bind, createChannelSplitter, connect, store, atom_set, console_log, observe, load.
  rewrite splitter_outputs_ok. cbn.
  lookups. cbn. rewrite !bool_decide_eq_true_2 by first [reflexivity | lia]. cbn.
  lookups. cbn. rewrite !bool_decide_eq_true_2 by first [reflexivity | lia]. cbn.
  f_equal. apply World_eq; cbn.
  - reflexivity.
  - apply Host_eq; reflexivity.
  - apply Vars_eq; reflexivity.
  - rewrite <- !app_assoc. reflexivity.
Qed.

(** ** Frames of the invariant *)

Lemma same_graph_refl m : same_graph m m.
Proof. by constructor. Qed.

Lemma host_step_refl h : host_step h h.
Proof. constructor; eauto. Qed.

Lemma same_length_array (o o' : option Uint8Array) d n :
  length <$> o' = length <$> o → o = Some d → length d = n →
  ∃ d', o' = Some d' ∧ length d' = n.
Proof.
  intros H -> <-. destruct o' as [d'|]; [|discriminate].
  exists d'. split; [done|]. cbn in H. congruence.
Qed.

Lemma GraphInv_frame e h m c h' m' :
  GraphInv e h m c → host_step h h' → same_graph m m' → GraphInv e h' m' c.
Proof.
  intros [Hc Hr (x & Hx & Hd & Hdn) (a & Ha & Hal & Han) (l & Hl & Hll & Hln)
            (r & Hr' & Hrl & Hrn) (s & Hs & Hsl & Hsn) (d & Hda & Hdl)
            (dl & HdL & HdLl) (dr & HdR & HdRl)]
         [Hn Hnodes Hctx] [S1 S2 S3 S4 S5 S6 S7 S8 S9].
  destruct (Hctx _ _ Hx) as (x' & Hx' & Hdx).
  constructor.
  - exact Hc.
  - congruence.
  - exists x'. rewrite Hdx. repeat split; [done | lia | rewrite Hnodes; done].
  - exists a. repeat split; [congruence | lia | rewrite Hnodes; done].
  - exists l. repeat split; [congruence | lia | rewrite Hnodes; done].
  - exists r. repeat split; [congruence | lia | rewrite Hnodes; done].
  - exists s. repeat split; [congruence | lia | rewrite Hnodes; done].
  - eapply same_length_array; eauto.
  - eapply same_length_array; eauto.
  - eapply same_length_array; eauto.
Qed.

(** A world that differs from [w] by a host step and leaves the graph
    variables alone satisfies the invariant if [w] does. *)
Lemma Inv_frame w w' :
  Inv w → env w' = env w → host_step (host w) (host w') →
  same_graph (vars w) (vars w') →
  (audioContext (vars w) = None → vars w' = vars w) →
  Inv w'.
Proof.
  intros HI He Hh Hs Hnone. unfold Inv in *.
  rewrite (sg_audioContext _ _ Hs). destruct (audioContext (vars w)) as [c|].
  - rewrite He. eapply GraphInv_frame; eauto.
  - rewrite Hnone; done.
Qed.

(** ** Equations of the other functions *)

Lemma length_fill data array : length (fill data array) = length array.
Proof.
  unfold fill. rewrite length_app, length_take, length_drop. lia.
Qed.

Lemma getAudioData_null w :
  analyser (vars w) = None ∨ dataArray (vars w) = None →
  getAudioData w = (Returns [], w).
Proof.
  intros H. unfold getAudioData, bind, load.
  destruct (analyser (vars w)), (dataArray (vars w)); try reflexivity.
  destruct H; discriminate.
Qed.

Lemma getAudioData_ready w a d :
  analyser (vars w) = Some a → dataArray (vars w) = Some d →
  getAudioData w
  = (Returns (fill (frequency_data (host w) a) d),
     with_vars (set_dataArray (Some (fill (frequency_data (host w) a) d))) w).
Proof.
  intros Ha Hd. unfold getAudioData, bind, load. rewrite Ha, Hd. reflexivity.
Qed.

Lemma getStereoData_null w :
  analyserL (vars w) = None ∨ analyserR (vars w) = None
  ∨ dataArrayL (vars w) = None ∨ dataArrayR (vars w) = None →
  getStereoData w = (Returns {| left := Num 0; right := Num 0 |}, w).
Proof.
  intros H. unfold getStereoData, bind, load.
  destruct (analyserL (vars w)), (analyserR (vars w)), (dataArrayL (vars w)),
    (dataArrayR (vars w)); try reflexivity.
  destruct H as [H|[H|[H|H]]]; discriminate.
Qed.

Lemma getStereoData_ready w l r dl dr :
  analyserL (vars w) = Some l → analyserR (vars w) = Some r →
  dataArrayL (vars w) = Some dl → dataArrayR (vars w) = Some dr →
  getStereoData w
  = (Returns {| left := js_div (reduce_add (fill (frequency_data (host w) l) dl)) (length dl);
                right := js_div (reduce_add (fill (frequency_data (host w) r) dr)) (length dr) |},
     stereo_world l r dl dr w).
Proof.
  intros Hl Hr Hdl Hdr. unfold getStereoData, bind, load.
  rewrite Hl, Hr, Hdl, Hdr. cbn. rewrite !length_fill. reflexivity.
Qed.

Lemma resumeAudioContext_null w :
  audioContext (vars w) = None → resumeAudioContext w = (Returns tt, w).
Proof. intros H. unfold resumeAudioContext, bind, load. now rewrite H. Qed.

Lemma resumeAudioContext_suspended w c x :
  audioContext (vars w) = Some c → contexts (host w) !! c = Some x →
  state x = suspended →
  resumeAudioContext w = (Returns tt, emit (ResumeRequest c) w).
Proof.
  intros H Hx Hs. unfold resumeAudioContext, bind, load, ctx_state.
  rewrite H. cbn. rewrite Hx, Hs. reflexivity.
Qed.

Lemma resumeAudioContext_other w c x :
  audioContext (vars w) = Some c → contexts (host w) !! c = Some x →
  state x ≠ suspended →
  resumeAudioContext w = (Returns tt, w).
Proof.
  intros H Hx Hs. unfold resumeAudioContext, bind, load, ctx_state.
  rewrite H. cbn. rewrite Hx. destruct (state x); [congruence | reflexivity ..].
Qed.

(** Whatever happens, [resumeAudioContext] touches nothing but the trace,
    and adds at most a resume request to it. *)
Lemma resumeAudioContext_frame w :
  ∃ o t, resumeAudioContext w
         = (o, {| env := env w; host := host w; vars := vars w; trace := trace w ++ t |})
         ∧ (t = [] ∨ ∃ c, t = [ResumeRequest c]).
Proof.
  unfold resumeAudioContext, bind, load, ctx_state, resume, observe, emit.
  destruct w as [e h m t]. cbn.
  destruct (audioContext m) as [c|]; cbn.
  - destruct (contexts h !! c) as [x|]; cbn.
    + destruct (state x); cbn.
      * eexists _, [_]. eauto.
      * eexists _, []. rewrite app_nil_r. eauto.
      * eexists _, []. rewrite app_nil_r. eauto.
    + eexists _, []. rewrite app_nil_r. eauto.
  - eexists _, []. rewrite app_nil_r. eauto.
Qed.

Lemma run_handler_playing el w :
  run_handler (PlayingHandler el) w
  = resumeAudioContext (emit (ConsoleLog (playing_message el w)) w).
Proof. reflexivity. Qed.

Lemma fire_play_unfold el w :
  fire_play el w
  = match onplay (elements (host w) el) with
    | Some h => run_handler h w
    | None => (Returns tt, w)
    end.
Proof.
  unfold fire_play, bind, element_prop.
  destruct (onplay (elements (host w) el)); reflexivity.
Qed.

Lemma fire_play_frame el w :
  ∃ o t, fire_play el w
         = (o, {| env := env w; host := host w; vars := vars w; trace := trace w ++ t |})
         ∧ quiet t.
Proof.
  rewrite fire_play_unfold.
  destruct (onplay (elements (host w) el)) as [[tag|el']|].
  - eexists _, [_]. split; [reflexivity|]. by repeat constructor.
  - rewrite run_handler_playing.
    destruct (resumeAudioContext_frame (emit (ConsoleLog (playing_message el' w)) w))
      as (o & t & E & Ht).
    rewrite E. exists o, (ConsoleLog (playing_message el' w) :: t). split.
    + cbn. rewrite <- app_assoc. reflexivity.
    + destruct Ht as [-> | [c ->]]; by repeat constructor.
  - destruct w. eexists _, []. split; [|constructor]. cbn. by rewrite app_nil_r.
Qed.

(** ** Equations of the wiring *)

Lemma wiring_unfold c a s el w :
  wiring c a s el w = wiring_tail c a s el (with_host (default_crossOrigin el) w).
Proof.
  unfold wiring. unfold bind at 1. unfold element_prop at 1.
  unfold bind at 1. fold (wiring_tail c a s el).
  assert (E : with_host (default_crossOrigin el) w
              = if truthy_string (crossOrigin (elements (host w) el)) then w
                else with_host (update_element el (with_crossOrigin (Some "anonymous"))) w).
  { apply World_eq; destruct (truthy_string _) eqn:Hco; cbn; try done;
      unfold default_crossOrigin; by rewrite Hco. }
  rewrite E. destruct (truthy_string _); reflexivity.
Qed.

Lemma default_crossOrigin_frame el h :
  contexts (default_crossOrigin el h) = contexts h
  ∧ next_context (default_crossOrigin el h) = next_context h
  ∧ nodes (default_crossOrigin el h) = nodes h
  ∧ next_node (default_crossOrigin el h) = next_node h
  ∧ connections (default_crossOrigin el h) = connections h
  ∧ spectrum (default_crossOrigin el h) = spectrum h
  ∧ (∀ x, el_source (elements (default_crossOrigin el h) x) = el_source (elements h x))
  ∧ (∀ x, el_id (elements (default_crossOrigin el h) x) = el_id (elements h x))
  ∧ (∀ x, onplay (elements (default_crossOrigin el h) x) = onplay (elements h x))
  ∧ (∀ x, x ≠ el → elements (default_crossOrigin el h) x = elements h x).
Proof.
  unfold default_crossOrigin. destruct (truthy_string _); cbn; [by repeat split|].
  repeat split; intros x; try intros Hx; cbn; case_bool_decide; subst; done.
Qed.

(** An element that is already bound to a source node: the wiring throws
    at [createMediaElementSource], after the crossOrigin default. *)
Lemma wiring_bound c a s el w :
  el_source (elements (host w) el) = true →
  wiring c a s el w = (Throws InvalidStateError, with_host (default_crossOrigin el) w).
Proof.
  intros Hsrc. rewrite wiring_unfold.
  destruct (default_crossOrigin_frame el (host w)) as (_ & _ & _ & _ & _ & _ & F7 & _).
  unfold wiring_tail, bind, createMediaElementSource. cbn. by rewrite F7, Hsrc.
Qed.

Lemma wiring_tail_unbound c a s el w x :
  el_source (elements (host w) el) = false →
  a < next_node (host w) → nodes (host w) !! a = Some (analyser_512 c) →
  s < next_node (host w) → nodes (host w) !! s = Some (splitter_2 c) →
  contexts (host w) !! c = Some x →
  destination x < next_node (host w) →
  nodes (host w) !! destination x = Some (destination_of c) →
  wiring_tail c a s el w = (Returns tt, wired_from c a s (destination x) el w).
Proof.
  intros Hsrc Ha Han Hs Hsn Hx Hd Hdn. unfold wiring_tail.
  unfold bind at 1. unfold createMediaElementSource at 1. rewrite Hsrc.
  unfold bind at 1. unfold connect at 1. cbn.
  lookups. rewrite Han. cbn.
  rewrite !bool_decide_eq_true_2 by first [reflexivity | lia]. cbn.
  unfold bind at 1. unfold connect at 1. cbn.
  lookups. rewrite Hsn. cbn.
  rewrite !bool_decide_eq_true_2 by first [reflexivity | lia]. cbn.
  unfold bind at 1. unfold ctx_destination at 1. cbn. rewrite Hx.
  unfold bind at 1. unfold connect at 1. cbn.
  lookups. rewrite Han, Hdn. cbn.
  rewrite !bool_decide_eq_true_2 by first [reflexivity | lia]. cbn.
  unfold bind, store, element_prop, console_log, observe, set_onplay. cbn.
  rewrite bool_decide_eq_true_2 by done. cbn.
  f_equal. apply World_eq; cbn.
  - done.
  - unfold wired_host. apply Host_eq; reflexivity.
  - done.
  - rewrite <- !app_assoc. reflexivity.
Qed.

(** An unbound element, on an intact graph: every step succeeds. *)
Lemma wiring_unbound c a s el w x :
  el_source (elements (host w) el) = false →
  a < next_node (host w) → nodes (host w) !! a = Some (analyser_512 c) →
  s < next_node (host w) → nodes (host w) !! s = Some (splitter_2 c) →
  contexts (host w) !! c = Some x →
  destination x < next_node (host w) →
  nodes (host w) !! destination x = Some (destination_of c) →
  wiring c a s el w = (Returns tt, wired c a s (destination x) el w).
Proof.
  intros Hsrc Ha Han Hs Hsn Hx Hd Hdn. rewrite wiring_unfold.
  destruct (default_crossOrigin_frame el (host w))
    as (F1 & F2 & F3 & F4 & F5 & F6 & F7 & F8 & F9 & F10).
  apply wiring_tail_unbound; cbn; rewrite ?F7, ?F4, ?F3, ?F1; done.
Qed.

(** ** Case analyses *)

Lemma initAudioContext_case w : init_case w (initAudioContext w).
Proof.
  destruct (window (env w)) as [win|] eqn:Hw.
  - destruct (audioContext (vars w)) as [c|] eqn:Ha.
    + rewrite (initAudioContext_existing w win c) by done. by econstructor.
    + destruct (AudioCtor win) as [ctor|] eqn:Hc.
      * rewrite (initAudioContext_fresh w win ctor) by done. by econstructor.
      * rewrite (initAudioContext_no_ctor w win) by done. by econstructor.
  - rewrite initAudioContext_no_window by done. by constructor.
Qed.

Lemma Inv_initial e h : Inv (initial_world e h).
Proof. reflexivity. Qed.

Lemma Inv_built w win ctor :
  window (env w) = Some win → AudioCtor win = Some ctor → Inv (built w).
Proof.
  intros Hw Hc. unfold Inv. cbn. constructor; cbn.
  - eauto.
  - done.
  - eexists. rewrite lookup_insert_eq. split; [done|]. cbn. split; [lia|]. by lookups.
  - eexists. split; [done|]. split; [lia|]. by lookups.
  - eexists. split; [done|]. split; [lia|]. by lookups.
  - eexists. split; [done|]. split; [lia|]. by lookups.
  - eexists. split; [done|]. split; [lia|]. by lookups.
  - eexists. split; [done|]. unfold Uint8Array_new. by rewrite length_replicate.
  - eexists. split; [done|]. unfold Uint8Array_new. by rewrite length_replicate.
  - eexists. split; [done|]. unfold Uint8Array_new. by rewrite length_replicate.
Qed.

(** [initAudioContext] returns what [audioContext] holds afterwards and
    keeps the invariant. *)
Lemma initAudioContext_Inv w o w1 :
  Inv w → initAudioContext w = (o, w1) →
  Inv w1 ∧ o = Returns (audioContext (vars w1)).
Proof.
  intros HI E. pose proof (initAudioContext_case w) as C. rewrite E in C.
  inversion C; subst.
  - split; [done|]. unfold Inv in HI.
    destruct (audioContext (vars w1)) as [c|]; [|done].
    destruct (gi_ctor _ _ _ _ HI) as (win & ? & Hw & _). congruence.
  - split; [done|]. congruence.
  - split; [|cbn; congruence].
    unfold Inv in *. cbn. by rewrite H2 in *.
  - split; [|done]. by eapply Inv_built.
Qed.

Lemma connectAudioElement_unfold el w r w1 :
  initAudioContext w = (Returns r, w1) →
  connectAudioElement el w =
    match r, analyser (vars w1), splitter (vars w1) with
    | Some c, Some a, Some s =>
        if bool_decide (el ∈ connectedElements (vars w1)) then (Returns tt, w1)
        else try_catch (wiring c a s el) (λ e, console_warn wiring_warning e) w1
    | _, _, _ => (Returns tt, w1)
    end.
Proof.
  intros E. unfold connectAudioElement. unfold bind at 1. rewrite E.
  unfold bind, load, ret.
  destruct r, (analyser (vars w1)), (splitter (vars w1)); try reflexivity.
  destruct (bool_decide _); reflexivity.
Qed.

Lemma connectAudioElement_case el w :
  Inv w →
  ∃ w1 w2, initAudioContext w = (Returns (audioContext (vars w1)), w1) ∧ Inv w1
           ∧ connectAudioElement el w = (Returns tt, w2) ∧ connect_case el w1 w2.
Proof.
  intros HI. destruct (initAudioContext w) as [o w1] eqn:E.
  destruct (initAudioContext_Inv _ _ _ HI E) as [HI1 ->].
  exists w1. rewrite (connectAudioElement_unfold el w _ w1 E).
  pose proof HI1 as G. unfold Inv in G.
  destruct (audioContext (vars w1)) as [c|] eqn:Hc.
  - destruct G as [_ _ (x & Hx & Hd & Hdn) (a & Ha & Hal & Han) _ _ (s & Hs & Hsl & Hsn) _ _ _].
    rewrite Ha, Hs. case_bool_decide as Hel.
    + exists w1. repeat split; try done. by eapply connect_known.
    + unfold try_catch. destruct (el_source (elements (host w1) el)) eqn:Hsrc.
      * pose proof (wiring_bound c a s el w1 Hsrc) as W. rewrite W.
        exists (refused el w1). repeat split; try done. by eapply connect_refused.
      * pose proof (wiring_unbound c a s el w1 x Hsrc Hal Han Hsl Hsn Hx Hd Hdn) as W.
        rewrite W. eexists. repeat split; try done. by eapply connect_wired.
  - exists w1. repeat split; try done. by constructor.
Qed.

(** ** The invariant holds in every reachable world *)

Lemma host_step_default_crossOrigin el h : host_step h (default_crossOrigin el h).
Proof.
  destruct (default_crossOrigin_frame el h) as (F1 & _ & F3 & F4 & _).
  constructor; rewrite ?F1, ?F3, ?F4; eauto.
Qed.

Lemma host_step_wired c a s out el h : host_step h (wired_host c a s out el h).
Proof.
  constructor; cbn.
  - lia.
  - intros n Hn. by rewrite lookup_insert_ne by lia.
  - eauto.
Qed.

Lemma host_step_trans h1 h2 h3 : host_step h1 h2 → host_step h2 h3 → host_step h1 h3.
Proof.
  intros [N1 L1 C1] [N2 L2 C2]. constructor.
  - lia.
  - intros n Hn. rewrite L2 by lia. by apply L1.
  - intros c x Hx. destruct (C1 _ _ Hx) as (x' & Hx' & D1).
    destruct (C2 _ _ Hx') as (x'' & Hx'' & D2). exists x''. split; [done | congruence].
Qed.

Lemma Inv_connect_case el w1 w2 : Inv w1 → connect_case el w1 w2 → Inv w2.
Proof.
  intros HI C. destruct C as [ | | c a s Hc Ha Hs Hel Hsrc W | c a s x Hc Ha Hs Hx Hel Hsrc W ];
    try done.
  - apply (Inv_frame w1); [exact HI | reflexivity | | | reflexivity].
    + apply host_step_default_crossOrigin.
    + apply same_graph_refl.
  - apply (Inv_frame w1); [exact HI | reflexivity | | | ].
    + eapply host_step_trans; [apply host_step_default_crossOrigin | apply host_step_wired].
    + by constructor.
    + congruence.
Qed.

Lemma Inv_null_graph w : Inv w → audioContext (vars w) = None → vars w = initial_vars.
Proof. unfold Inv. intros HI Hn. by rewrite Hn in HI. Qed.

Lemma Inv_getAudioData w : Inv w → Inv (snd (getAudioData w)).
Proof.
  intros HI. destruct (analyser (vars w)) as [a|] eqn:Ha.
  - destruct (dataArray (vars w)) as [d|] eqn:Hd.
    + rewrite (getAudioData_ready w a d) by done.
      apply (Inv_frame w); [exact HI | reflexivity | | | ].
      * apply host_step_refl.
      * constructor; try reflexivity. cbn. by rewrite Hd, length_fill.
      * intros Hn. rewrite (Inv_null_graph w HI Hn) in Ha. discriminate.
    + rewrite getAudioData_null by auto. done.
  - rewrite getAudioData_null by auto. done.
Qed.

Lemma Inv_getStereoData w : Inv w → Inv (snd (getStereoData w)).
Proof.
  intros HI.
  destruct (analyserL (vars w)) as [l|] eqn:Hl; [|rewrite getStereoData_null by auto; done].
  destruct (analyserR (vars w)) as [r|] eqn:Hr; [|rewrite getStereoData_null by auto; done].
  destruct (dataArrayL (vars w)) as [dl|] eqn:Hdl; [|rewrite getStereoData_null by auto; done].
  destruct (dataArrayR (vars w)) as [dr|] eqn:Hdr; [|rewrite getStereoData_null by auto 6; done].
  rewrite (getStereoData_ready w l r dl dr) by done.
  apply (Inv_frame w); [exact HI | reflexivity | | | ].
  - apply host_step_refl.
  - constructor; try reflexivity; cbn.
    + by rewrite Hdl, length_fill.
    + by rewrite Hdr, length_fill.
  - intros Hn. rewrite (Inv_null_graph w HI Hn) in Hl. discriminate.
Qed.

Lemma getAverageVolume_world w : snd (getAverageVolume w) = snd (getAudioData w).
Proof.
  unfold getAverageVolume, bind. destruct (getAudioData w) as [[d|e] w']; [|done].
  destruct (length d =? 0); reflexivity.
Qed.

Lemma Inv_run c w : Inv w → Inv (run c w).
Proof.
  intros HI. destruct c as [ | el | | | | | el ]; unfold run.
  - destruct (initAudioContext w) as [o w1] eqn:E.
    by destruct (initAudioContext_Inv _ _ _ HI E).
  - destruct (connectAudioElement_case el w HI) as (w1 & w2 & _ & HI1 & E & C).
    rewrite E. by eapply Inv_connect_case.
  - by apply Inv_getAudioData.
  - by apply Inv_getStereoData.
  - rewrite getAverageVolume_world. by apply Inv_getAudioData.
  - destruct (resumeAudioContext_frame w) as (o & t & E & _). rewrite E. exact HI.
  - destruct (fire_play_frame el w) as (o & t & E & _). rewrite E. exact HI.
Qed.

Theorem Reachable_Inv w : Reachable w → Inv w.
Proof.
  induction 1 as [e h | c w _ IH | h' w _ IH Hs | d d' w _ IH Hd Hlen ].
  - apply Inv_initial.
  - by apply Inv_run.
  - apply (Inv_frame w); [exact IH | reflexivity | exact Hs | apply same_graph_refl | reflexivity].
  - apply (Inv_frame w); [exact IH | reflexivity | | | ].
    + apply host_step_refl.
    + constructor; try reflexivity. cbn. rewrite Hd. cbn. congruence.
    + intros Hn. rewrite (Inv_null_graph w IH Hn) in Hd. discriminate.
Qed.

(** ** The example worlds *)

Lemma loaded_reachable : Reachable Examples.loaded.
Proof. apply reach_load. Defined.

Lemma ready_reachable : Reachable Examples.ready.
Proof. apply reach_call, loaded_reachable. Defined.

Lemma connected_reachable : Reachable Examples.connected.
Proof. apply reach_call, ready_reachable. Defined.

Example ready_returns : fst (initAudioContext Examples.loaded) = Returns (Some 0).
Proof. vm_compute. reflexivity. Qed.

Example ready_trace :
  trace Examples.ready
  = [ NewAudioContext 0; CreateAnalyser 0 1; CreateAnalyser 0 2; CreateAnalyser 0 3;
      CreateChannelSplitter 0 4 2; Connect 4 0 2; Connect 4 1 3; AtomSet true;
      ConsoleLog "AudioContext initialized (Stereo Mode)" ].
Proof. vm_compute. reflexivity. Qed.

Example connected_trace :
  trace Examples.connected
  = trace Examples.ready
    ++ [ CreateMediaElementSource 0 1%positive 5; Connect 5 0 1; Connect 5 0 4;
         Connect 1 0 0; ConsoleLog "✅ Audio element connected (Stereo): player" ].
Proof. vm_compute. reflexivity. Qed.

Example connected_edges :
  connections (host Examples.connected) = [ (4, 0, 2); (4, 1, 3); (5, 0, 1); (5, 0, 4); (1, 0, 0) ].
Proof. vm_compute. reflexivity. Qed.

Example full_scale_volume : fst (getAverageVolume Examples.ready) = Returns (Num 255).
Proof. vm_compute. reflexivity. Qed.

Example full_scale_stereo :
  fst (getStereoData Examples.ready) = Returns {| left := Num 255; right := Num 255 |}.
Proof. vm_compute. reflexivity. Qed.

(** * The claims *)

(** ** Extraction before initialization *)

(** C6: while the graph has not been initialized, [getAudioData] returns
    an array of length zero, throws nothing and changes nothing. *)
Theorem getAudioData_uninitialized w :
  Reachable w → audioContext (vars w) = None →
  ∃ data, getAudioData w = (Returns data, w) ∧ length data = 0.
Proof.
  intros HR Hn. exists []. split; [|reflexivity].
  apply getAudioData_null. left.
  by rewrite (Inv_null_graph w (Reachable_Inv w HR) Hn).
Qed.

Lemma getAudioData_uninitialized_witness :
  ∃ data, getAudioData Examples.loaded = (Returns data, Examples.loaded) ∧ length data = 0.
Proof.
  apply (getAudioData_uninitialized Examples.loaded loaded_reachable).
  reflexivity.
Defined.

(** ** Missing environments *)

(** C9: without a [window], [initAudioContext] returns null and leaves the
    world as it is (nothing constructed, nothing logged); with a [window]
    that has neither [AudioContext] nor [webkitAudioContext] it returns
    null, throws nothing, and the only effect is one [console.error]. *)
Theorem initAudioContext_missing_environment w :
  Reachable w →
  match window (env w) with
  | None => initAudioContext w = (Returns None, w)
  | Some win =>
      match AudioCtor win with
      | None =>
          initAudioContext w = (Returns None, emit (ConsoleError unsupported_message) w)
          ∧ host (snd (initAudioContext w)) = host w
          ∧ vars (snd (initAudioContext w)) = vars w
      | Some _ => True
      end
  end.
Proof.
  intros HR. destruct (window (env w)) as [win|] eqn:Hw.
  - destruct (AudioCtor win) eqn:Hc; [done|].
    assert (Hn : audioContext (vars w) = None).
    { pose proof (Reachable_Inv w HR) as HI. unfold Inv in HI.
      destruct (audioContext (vars w)) as [c|]; [|done].
      destruct (gi_ctor _ _ _ _ HI) as (win' & ctor & Hw' & Hc'). congruence. }
    rewrite (initAudioContext_no_ctor w win Hw Hn Hc). done.
  - by apply initAudioContext_no_window.
Qed.

Lemma initAudioContext_missing_environment_witness :
  initAudioContext (initial_world Examples.server Examples.page)
  = (Returns None, initial_world Examples.server Examples.page)
  ∧ initAudioContext (initial_world Examples.old_browser Examples.page)
    = (Returns None,
       emit (ConsoleError unsupported_message)
         (initial_world Examples.old_browser Examples.page)).
Proof.
  split.
  - exact (initAudioContext_missing_environment _
             (reach_load Examples.server Examples.page)).
  - exact (proj1 (initAudioContext_missing_environment _
                    (reach_load Examples.old_browser Examples.page))).
Defined.

(** ** Resumption *)

(** C8: [resumeAudioContext] returns normally; it issues a resume request
    (exactly one, for the module's context) when the context exists and is
    suspended, and otherwise leaves the world as it is. *)
Theorem resumeAudioContext_iff_suspended w :
  Reachable w →
  resumeAudioContext w
  = (Returns tt,
     match suspended_context w with
     | Some c => emit (ResumeRequest c) w
     | None => w
     end)
  ∧ ((∃ c, ResumeRequest c ∈ drop (length (trace w)) (trace (snd (resumeAudioContext w))))
     ↔ (∃ c x, audioContext (vars w) = Some c ∧ contexts (host w) !! c = Some x
               ∧ state x = suspended)).
Proof.
  intros HR. pose proof (Reachable_Inv w HR) as HI.
  assert (E : resumeAudioContext w
              = (Returns tt, match suspended_context w with
                             | Some c => emit (ResumeRequest c) w
                             | None => w
                             end)).
  { unfold suspended_context. unfold Inv in HI.
    destruct (audioContext (vars w)) as [c|] eqn:Hc.
    - destruct (gi_ctx _ _ _ _ HI) as (x & Hx & _). rewrite Hx.
      destruct (state x) eqn:Hs.
      + by apply (resumeAudioContext_suspended w c x).
      + apply (resumeAudioContext_other w c x); congruence.
      + apply (resumeAudioContext_other w c x); congruence.
    - by apply resumeAudioContext_null. }
  split; [exact E|]. rewrite E. cbn [snd]. unfold suspended_context.
  destruct (audioContext (vars w)) as [c|] eqn:Hc.
  - destruct (contexts (host w) !! c) as [x|] eqn:Hx.
    + destruct (state x) eqn:Hs; cbn.
      * rewrite drop_app_length. split; [eauto 6|]. intros _. exists c. set_solver.
      * rewrite drop_all. split; [intros [? H]; by inversion H|].
        intros (? & ? & ? & ? & ?). congruence.
      * rewrite drop_all. split; [intros [? H]; by inversion H|].
        intros (? & ? & ? & ? & ?). congruence.
    + rewrite drop_all. split; [intros [? H]; by inversion H|].
      intros (? & ? & ? & ? & ?). congruence.
  - rewrite drop_all. split; [intros [? H]; by inversion H|].
    intros (? & ? & ? & ? & ?). congruence.
Qed.

Lemma resumeAudioContext_iff_suspended_witness :
  resumeAudioContext Examples.ready
  = (Returns tt, emit (ResumeRequest 0) Examples.ready).
Proof.
  exact (proj1 (resumeAudioContext_iff_suspended Examples.ready ready_reachable)).
Defined.

(** ** Buffer lengths *)

(** C7: once the graph exists, each of the three buffers has as many
    entries as its analyser has bins, that is 512 / 2 = 256, in every
    reachable world; and [getAudioData] returns 256 bins. *)
Theorem buffer_length_invariant w c :
  Reachable w → audioContext (vars w) = Some c →
  (∃ a d, analyser (vars w) = Some a ∧ dataArray (vars w) = Some d
          ∧ binCount (host w) a = Some (512 / 2)%Z
          ∧ binCount (host w) a = Some (Z.of_nat (length d)) ∧ length d = 256)
  ∧ (∃ a d, analyserL (vars w) = Some a ∧ dataArrayL (vars w) = Some d
            ∧ binCount (host w) a = Some (512 / 2)%Z
            ∧ binCount (host w) a = Some (Z.of_nat (length d)) ∧ length d = 256)
  ∧ (∃ a d, analyserR (vars w) = Some a ∧ dataArrayR (vars w) = Some d
            ∧ binCount (host w) a = Some (512 / 2)%Z
            ∧ binCount (host w) a = Some (Z.of_nat (length d)) ∧ length d = 256)
  ∧ (∃ data w', getAudioData w = (Returns data, w') ∧ length data = 256).
Proof.
  intros HR Hc. pose proof (Reachable_Inv w HR) as HI. unfold Inv in HI. rewrite Hc in HI.
  destruct HI as [_ _ _ (a & Ha & _ & Han) (l & Hl & _ & Hln) (r & Hr & _ & Hrn) _
                    (d & Hd & Hdl) (dl & HdL & HdLl) (dr & HdR & HdRl)].
  assert (B : ∀ n, nodes (host w) !! n = Some (analyser_512 c) →
                   binCount (host w) n = Some 256%Z).
  { intros n Hn. unfold binCount. by rewrite Hn. }
  repeat split.
  - exists a, d. rewrite Hdl, (B a Han). done.
  - exists l, dl. rewrite HdLl, (B l Hln). done.
  - exists r, dr. rewrite HdRl, (B r Hrn). done.
  - eexists _, _. split; [by apply (getAudioData_ready w a d)|].
    by rewrite length_fill.
Qed.

Lemma buffer_length_invariant_witness :
  ∃ data w', getAudioData Examples.connected = (Returns data, w') ∧ length data = 256.
Proof.
  apply (buffer_length_invariant Examples.connected 0 connected_reachable).
  reflexivity.
Defined.

(** ** Averages *)

Lemma reduce_add_sum data : reduce_add data = sum_bins data.
Proof.
  unfold reduce_add.
  assert (G : ∀ acc, fold_left (λ a b, a + byte_val b)%Z data acc = (acc + sum_bins data)%Z).
  { unfold sum_bins. induction data as [|b data IH]; intros acc; cbn; [lia|]. rewrite IH. lia. }
  rewrite G. lia.
Qed.

(** The indexed loop visits every bin once, in order. *)
Lemma sum_loop_from (pre data : list byte) (acc : Z) :
  fold_left (λ sum i, sum + byte_val (nth i (pre ++ data) x00))%Z
            (seq (length pre) (length data)) acc
  = (acc + sum_bins data)%Z.
Proof.
  revert pre acc. induction data as [|b data IH]; intros pre acc; cbn [length seq fold_left].
  - cbn. lia.
  - rewrite app_nth2 by lia. rewrite Nat.sub_diag. cbn [nth].
    replace (pre ++ b :: data) with ((pre ++ [b]) ++ data) by (by rewrite <- app_assoc).
    replace (S (length pre)) with (length (pre ++ [b])) by (rewrite length_app; cbn; lia).
    rewrite IH. unfold sum_bins. cbn [foldr]. lia.
Qed.

Lemma sum_loop_sum data : sum_loop data = sum_bins data.
Proof. unfold sum_loop. exact (sum_loop_from [] data 0). Qed.

Lemma Zpos_of_nat_S (n : nat) : Z.pos (Pos.of_nat (S n)) = Z.of_nat (S n).
Proof. rewrite <- Pos.of_nat_succ. by rewrite Zpos_P_of_succ_nat, Nat2Z.inj_succ. Qed.

Lemma js_div_uniform (v : Z) (n : nat) :
  js_div (v * Z.of_nat (S n)) (S n) = Num (Qred (inject_Z v)).
Proof.
  unfold js_div. f_equal. apply Qred_complete. unfold Qeq, inject_Z. cbn [Qnum Qden].
  rewrite Zpos_of_nat_S. lia.
Qed.

Lemma sum_bins_replicate (b : byte) (n : nat) :
  sum_bins (replicate n b) = (byte_val b * Z.of_nat n)%Z.
Proof.
  induction n as [|n IH]; [cbn; lia|].
  cbn [replicate sum_bins foldr]. fold (sum_bins (replicate n b)). rewrite IH. lia.
Qed.

Lemma getAverageVolume_unfold w :
  getAverageVolume w
  = match getAudioData w with
    | (Returns data, w') => (Returns (average data), w')
    | (Throws e, w') => (Throws e, w')
    end.
Proof.
  unfold getAverageVolume, bind, average.
  destruct (getAudioData w) as [[data|e] w']; [|reflexivity].
  destruct (length data =? 0)%nat; reflexivity.
Qed.

Lemma getAudioData_returns w : ∃ data w', getAudioData w = (Returns data, w').
Proof.
  destruct (analyser (vars w)) as [a|] eqn:Ha; [|rewrite getAudioData_null; eauto].
  destruct (dataArray (vars w)) as [d|] eqn:Hd; [|rewrite getAudioData_null; eauto].
  rewrite (getAudioData_ready w a d); eauto.
Qed.

Lemma average_uniform (b : byte) (n : nat) :
  average (replicate (S n) b) = Num (Qred (inject_Z (byte_val b))).
Proof.
  unfold average. rewrite length_replicate. cbn [Nat.eqb].
  rewrite sum_loop_sum, sum_bins_replicate. apply js_div_uniform.
Qed.

Lemma byte_val_range b : (0 ≤ byte_val b ≤ 255)%Z.
Proof. unfold byte_val. pose proof (Byte.to_N_bounded b). lia. Qed.

Lemma sum_bins_range data : (0 ≤ sum_bins data ≤ 255 * Z.of_nat (length data))%Z.
Proof.
  induction data as [|b data IH]; [cbn; lia|].
  change (sum_bins (b :: data)) with (byte_val b + sum_bins data)%Z.
  pose proof (byte_val_range b). cbn [length]. lia.
Qed.

(** A full buffer: the quotient is an integer of at most 16 bits over 2^8,
    which binary64 represents exactly. *)
Lemma js_div_256 data :
  length data = 256 →
  js_div (sum_bins data) (length data) = Num (Qred (Qmake (sum_bins data) 256))
  ∧ (0 ≤ sum_bins data ≤ 65280)%Z
  ∧ (Qred (Qmake (sum_bins data) 256) == arithmetic_mean data)%Q.
Proof.
  intros Hlen. pose proof (sum_bins_range data) as R. rewrite Hlen in *.
  split; [reflexivity|]. split; [lia|].
  unfold arithmetic_mean. rewrite Hlen, Qred_correct, Qmake_Qdiv. reflexivity.
Qed.

(** C4: [getAverageVolume] returns normally, with the arithmetic mean of
    the snapshot [getAudioData] returns: 0 for the empty snapshot, and for
    a snapshot of 256 bins the sum of the bins over 256, which binary64
    holds exactly.  In a reachable world the snapshot is empty or has 256
    bins.  The mean is 0 when every bin is 0 and 255 when every bin is
    255. *)
Theorem getAverageVolume_mean w :
  Reachable w →
  (∃ data w', getAudioData w = (Returns data, w')
      ∧ getAverageVolume w = (Returns (average data), w')
      ∧ (data = []
         ∨ (length data = 256 ∧ (0 ≤ sum_bins data ≤ 65280)%Z
            ∧ average data = Num (Qred (Qmake (sum_bins data) 256)))))
  ∧ average [] = Num 0
  ∧ (∀ data, length data = 256 →
       ∃ q, average data = Num q ∧ (q == arithmetic_mean data)%Q)
  ∧ (∀ n, average (replicate (S n) x00) = Num 0)
  ∧ (∀ n, average (replicate (S n) xff) = Num 255).
Proof.
  intros HR. pose proof (Reachable_Inv w HR) as HI. repeat split.
  - destruct (audioContext (vars w)) as [c|] eqn:Hc.
    + unfold Inv in HI. rewrite Hc in HI.
      destruct HI as [_ _ _ (a & Ha & _) _ _ _ (d & Hd & Hlen) _ _].
      pose proof (getAudioData_ready w a d Ha Hd) as E.
      eexists _, _. split; [exact E|]. split; [by rewrite getAverageVolume_unfold, E|].
      right. set (data := fill (frequency_data (host w) a) d).
      assert (Hl : length data = 256) by (unfold data; by rewrite length_fill).
      destruct (js_div_256 data Hl) as (J & R & _).
      split; [exact Hl|]. split; [exact R|].
      unfold average. rewrite sum_loop_sum, J. by rewrite Hl.
    + assert (E : getAudioData w = (Returns [], w)).
      { apply getAudioData_null. left. by rewrite (Inv_null_graph w HI Hc). }
      exists [], w. split; [exact E|]. split; [by rewrite getAverageVolume_unfold, E|].
      by left.
  - intros data Hl. destruct (js_div_256 data Hl) as (J & _ & M).
    exists (Qred (Qmake (sum_bins data) 256)). split; [|exact M].
    unfold average. rewrite sum_loop_sum, J. by rewrite Hl.
  - intros n. by rewrite average_uniform.
  - intros n. by rewrite average_uniform.
Qed.

Lemma getAverageVolume_mean_witness :
  ∃ data w', getAudioData Examples.ready = (Returns data, w')
    ∧ getAverageVolume Examples.ready = (Returns (average data), w')
    ∧ (data = []
       ∨ (length data = 256 ∧ (0 ≤ sum_bins data ≤ 65280)%Z
          ∧ average data = Num (Qred (Qmake (sum_bins data) 256)))).
Proof.
  exact (proj1 (getAverageVolume_mean Examples.ready ready_reachable)).
Defined.

(** C5: [getStereoData] returns normally in every reachable world.
    Before initialization it returns [{left: 0, right: 0}] and changes
    nothing; afterwards it pulls the current bins of the left and right
    analysers into their buffers (256 each) and returns, in one record,
    for each channel the sum of its bins divided by their number. *)
Theorem getStereoData_means w :
  Reachable w →
  match audioContext (vars w) with
  | None => getStereoData w = (Returns {| left := Num 0; right := Num 0 |}, w)
  | Some _ =>
      ∃ l r oldL oldR dl dr w',
        analyserL (vars w) = Some l ∧ analyserR (vars w) = Some r
        ∧ dataArrayL (vars w) = Some oldL ∧ dataArrayR (vars w) = Some oldR
        ∧ dl = fill (frequency_data (host w) l) oldL
        ∧ dr = fill (frequency_data (host w) r) oldR
        ∧ getStereoData w
          = (Returns {| left := Num (Qred (Qmake (sum_bins dl) 256));
                        right := Num (Qred (Qmake (sum_bins dr) 256)) |}, w')
        ∧ dataArrayL (vars w') = Some dl ∧ dataArrayR (vars w') = Some dr
        ∧ length dl = 256 ∧ length dr = 256
        ∧ (0 ≤ sum_bins dl ≤ 65280)%Z ∧ (0 ≤ sum_bins dr ≤ 65280)%Z
        ∧ (Qred (Qmake (sum_bins dl) 256) == arithmetic_mean dl)%Q
        ∧ (Qred (Qmake (sum_bins dr) 256) == arithmetic_mean dr)%Q
  end.
Proof.
  intros HR. pose proof (Reachable_Inv w HR) as HI.
  destruct (audioContext (vars w)) as [c|] eqn:Hc.
  - unfold Inv in HI. rewrite Hc in HI.
    destruct HI as [_ _ _ _ (l & Hl & _) (r & Hr & _) _ _ (oldL & HdL & HLl) (oldR & HdR & HRl)].
    set (dl := fill (frequency_data (host w) l) oldL).
    set (dr := fill (frequency_data (host w) r) oldR).
    assert (Ll : length dl = 256) by (unfold dl; by rewrite length_fill).
    assert (Lr : length dr = 256) by (unfold dr; by rewrite length_fill).
    destruct (js_div_256 dl Ll) as (Jl & Rl & Ml).
    destruct (js_div_256 dr Lr) as (Jr & Rr & Mr).
    exists l, r, oldL, oldR, dl, dr, (stereo_world l r oldL oldR w).
    repeat split; try done; try lia.
    rewrite (getStereoData_ready w l r oldL oldR Hl Hr HdL HdR).
    rewrite !reduce_add_sum. fold dl dr.
    rewrite <- Jl, <- Jr, Ll, Lr, HLl, HRl. reflexivity.
  - apply getStereoData_null. left.
    by rewrite (Inv_null_graph w HI Hc).
Qed.

Lemma getStereoData_means_witness :
  getStereoData Examples.loaded
  = (Returns {| left := Num 0; right := Num 0 |}, Examples.loaded).
Proof.
  exact (getStereoData_means Examples.loaded loaded_reachable).
Defined.

(** ** Counting what the module has asked the host to build *)

Lemma is_connected_log_success name :
  is_connected_log (ConsoleLog ("✅ Audio element connected (Stereo): " +:+ name)) = true.
Proof. reflexivity. Qed.

Lemma count_events_app p t1 t2 :
  count_events p (t1 ++ t2) = count_events p t1 + count_events p t2.
Proof. unfold count_events. by rewrite List.filter_app, length_app. Qed.

(** ** Idempotence of initialization *)

Lemma count_events_quiet p t :
  (∀ ev, p ev = true → is_construction ev = true) → quiet t → count_events p t = 0.
Proof.
  intros Hp Ht. unfold count_events. induction Ht as [|ev t Hev _ IH]; [done|].
  cbn. destruct (p ev) eqn:E; [|exact IH].
  rewrite (Hp ev E) in Hev. discriminate Hev.
Qed.

Lemma quiet_app t1 t2 : quiet t1 → quiet t2 → quiet (t1 ++ t2).
Proof. apply Forall_app_2. Qed.

Lemma constructed_quiet n t t' : constructed n t → quiet t' → constructed n (t ++ t').
Proof.
  intros [C1 C2 C3 C4] Hq.
  constructor; rewrite count_events_app, (count_events_quiet _ t') by
    (try done; intros ev Hev; unfold is_construction; rewrite Hev;
     by rewrite ?orb_true_r); lia.
Qed.

Lemma constructed_built t h : constructed 0 t → constructed 1 (t ++ built_trace h).
Proof.
  intros [C1 C2 C3 C4]. constructor; rewrite count_events_app; cbn; lia.
Qed.

Lemma extends_trace_same w w' :
  audioContext (vars w') = audioContext (vars w) → trace w' = trace w → extends_trace w w'.
Proof.
  intros Ha Ht. left. split; [done|]. exists []. split; [by rewrite app_nil_r | constructor].
Qed.

Lemma extends_trace_quiet w w' w'' t :
  extends_trace w w' → audioContext (vars w'') = audioContext (vars w') →
  trace w'' = trace w' ++ t → quiet t → extends_trace w w''.
Proof.
  intros [(Ha & t0 & Ht0 & Hq0) | (Hn & [c Hc] & t0 & Ht0 & Hq0)] Ha' Ht Hq.
  - left. split; [congruence|]. exists (t0 ++ t).
    split; [by rewrite Ht, Ht0, app_assoc | by apply quiet_app].
  - right. split; [done|]. split; [exists c; congruence|]. exists (t0 ++ t).
    split; [by rewrite Ht, Ht0, app_assoc | by apply quiet_app].
Qed.

Lemma initAudioContext_extends w o w1 :
  initAudioContext w = (o, w1) → extends_trace w w1.
Proof.
  intros E. pose proof (initAudioContext_case w) as C. rewrite E in C.
  inversion C; subst.
  - by apply extends_trace_same.
  - by apply extends_trace_same.
  - left. split; [done|]. eexists [_]. split; [done|]. by repeat constructor.
  - right. split; [done|]. split; [by eexists|]. exists [].
    split; [by rewrite app_nil_r | constructor].
Qed.

Lemma connect_case_extends el w1 w2 :
  connect_case el w1 w2 →
  audioContext (vars w2) = audioContext (vars w1)
  ∧ ∃ t, trace w2 = trace w1 ++ t ∧ quiet t.
Proof.
  intros [ | | c a s Hc Ha Hs Hel Hsrc W | c a s x Hc Ha Hs Hx Hel Hsrc W ].
  - split; [done|]. exists []. split; [by rewrite app_nil_r | constructor].
  - split; [done|]. exists []. split; [by rewrite app_nil_r | constructor].
  - split; [done|]. eexists [_]. split; [done|]. by repeat constructor.
  - split; [done|]. eexists. split; [reflexivity|]. by repeat constructor.
Qed.

Lemma run_extends c w : Inv w → extends_trace w (run c w).
Proof.
  intros HI. destruct c as [ | el | | | | | el ]; unfold run.
  - destruct (initAudioContext w) as [o w1] eqn:E. by eapply initAudioContext_extends.
  - destruct (connectAudioElement_case el w HI) as (w1 & w2 & Ei & _ & E & C).
    rewrite E. destruct (connect_case_extends el w1 w2 C) as (Ha & t & Ht & Hq).
    eapply extends_trace_quiet; [by eapply initAudioContext_extends | exact Ha | exact Ht | exact Hq].
  - destruct (getAudioData_returns w) as (d & w' & E).
    destruct (analyser (vars w)) as [a|] eqn:Ha;
      [destruct (dataArray (vars w)) as [d0|] eqn:Hd|].
    + rewrite (getAudioData_ready w a d0) by done. by apply extends_trace_same.
    + rewrite getAudioData_null by auto. by apply extends_trace_same.
    + rewrite getAudioData_null by auto. by apply extends_trace_same.
  - destruct (analyserL (vars w)) as [l|] eqn:Hl;
      [|rewrite getStereoData_null by auto; by apply extends_trace_same].
    destruct (analyserR (vars w)) as [r|] eqn:Hr;
      [|rewrite getStereoData_null by auto; by apply extends_trace_same].
    destruct (dataArrayL (vars w)) as [dl|] eqn:Hdl;
      [|rewrite getStereoData_null by auto; by apply extends_trace_same].
    destruct (dataArrayR (vars w)) as [dr|] eqn:Hdr;
      [|rewrite getStereoData_null by auto 6; by apply extends_trace_same].
    rewrite (getStereoData_ready w l r dl dr) by done. by apply extends_trace_same.
  - rewrite getAverageVolume_world.
    destruct (analyser (vars w)) as [a|] eqn:Ha;
      [destruct (dataArray (vars w)) as [d0|] eqn:Hd|].
    + rewrite (getAudioData_ready w a d0) by done. by apply extends_trace_same.
    + rewrite getAudioData_null by auto. by apply extends_trace_same.
    + rewrite getAudioData_null by auto. by apply extends_trace_same.
  - destruct (resumeAudioContext_frame w) as (o & t & E & Ht). rewrite E.
    left. split; [done|]. exists t. split; [done|].
    destruct Ht as [-> | [c ->]]; by repeat constructor.
  - destruct (fire_play_frame el w) as (o & t & E & Ht). rewrite E.
    left. split; [done|]. by exists t.
Qed.

(** Over the whole life of the module the graph is built at most once:
    the trace of a reachable world shows no construction while
    [audioContext] is null, and exactly one afterwards. *)
Lemma Reachable_constructed w : Reachable w → constructed (graphs_built w) (trace w).
Proof.
  induction 1 as [e h | c w HR IH | h' w _ IH Hs | d d' w _ IH Hd Hlen ].
  - by constructor.
  - pose proof (run_extends c w (Reachable_Inv w HR)) as
      [(Ha & t & Ht & Hq) | (Hn & [c' Hc'] & t & Ht & Hq)].
    + unfold graphs_built in *. rewrite Ha, Ht. by apply constructed_quiet.
    + unfold graphs_built in *. rewrite Hn in IH. rewrite Hc', Ht.
      apply constructed_quiet; [|done]. by apply constructed_built.
  - exact IH.
  - exact IH.
Qed.

Lemma init_times_existing w win c n :
  window (env w) = Some win → audioContext (vars w) = Some c → init_times n w = w.
Proof.
  intros Hw Hc. induction n as [|n IH]; [done|].
  unfold init_times in *. rewrite Nat.iter_succ, IH. cbn [run].
  by rewrite (initAudioContext_existing w win c).
Qed.

Lemma initAudioContext_built w win ctor :
  window (env w) = Some win → AudioCtor win = Some ctor →
  audioContext (vars w) = None →
  initAudioContext (built w) = (Returns (Some (next_context (host w))), built w).
Proof.
  intros Hw Hc Hn. by apply (initAudioContext_existing (built w) win).
Qed.

Lemma init_times_built w win ctor n :
  window (env w) = Some win → AudioCtor win = Some ctor →
  audioContext (vars w) = None →
  init_times (S n) w = built w.
Proof.
  intros Hw Hc Hn. induction n as [|n IH].
  - change (init_times 1 w) with (snd (initAudioContext w)).
    by rewrite (initAudioContext_fresh w win ctor).
  - unfold init_times in *. rewrite Nat.iter_succ, IH. cbn [run].
    by rewrite (initAudioContext_built w win ctor).
Qed.

(** C2: in a window that has an audio-context constructor, and at any
    point of the module's life, after N >= 1 calls of [initAudioContext]
    the module has constructed, since it was loaded, one context, one
    splitter and three analysers, and has set the ready flag to true once.
    Every one of the calls returns that one context; every call after the
    first leaves the world exactly as it found it.  If the graph existed
    already, so does the first; if not, the flag was false before and the
    first call is the one that builds. *)
Theorem initAudioContext_idempotent w win ctor N :
  Reachable w → window (env w) = Some win → AudioCtor win = Some ctor → 1 ≤ N →
  let wN := init_times N w in
  ∃ c,
    audioContext (vars wN) = Some c
    ∧ count_events is_NewAudioContext (trace wN) = 1
    ∧ count_events is_CreateChannelSplitter (trace wN) = 1
    ∧ count_events is_CreateAnalyser (trace wN) = 3
    ∧ count_events is_ready_set (trace wN) = 1
    ∧ isAudioContextReady (vars wN) = true
    ∧ (∀ k, k < N → fst (initAudioContext (init_times k w)) = Returns (Some c))
    ∧ (∀ k, 1 ≤ k →
         initAudioContext (init_times k w) = (Returns (Some c), init_times k w))
    ∧ match audioContext (vars w) with
      | Some _ => wN = w
      | None =>
          wN = built w
          ∧ isAudioContextReady (vars w) = false
          ∧ count_events is_NewAudioContext (trace w) = 0
          ∧ count_events is_ready_set (trace w) = 0
      end.
Proof.
  intros HR Hw Hc HN wN.
  pose proof (Reachable_Inv w HR) as HI.
  pose proof (Reachable_constructed w HR) as HC. unfold graphs_built in HC.
  destruct (audioContext (vars w)) as [c|] eqn:Ha.
  - assert (B : ∀ k, init_times k w = w)
      by (intros k; by apply (init_times_existing w win c)).
    assert (Again : initAudioContext w = (Returns (Some c), w))
      by (by apply (initAudioContext_existing w win c)).
    destruct HC as [C1 C2 C3 C4]. unfold Inv in HI. rewrite Ha in HI.
    exists c. unfold wN. rewrite B.
    repeat split; try done.
    + apply (gi_ready _ _ _ _ HI).
    + intros k _. by rewrite B, Again.
    + intros k _. by rewrite B.
  - assert (B : ∀ k, init_times (S k) w = built w)
      by (intros k; by apply (init_times_built w win ctor)).
    assert (Again : initAudioContext (built w)
                    = (Returns (Some (next_context (host w))), built w))
      by (by apply (initAudioContext_built w win ctor)).
    assert (EN : wN = built w) by (unfold wN; destruct N as [|N]; [lia | apply B]).
    destruct (constructed_built (trace w) (host w) HC) as [C1 C2 C3 C4].
    destruct HC as [Z1 Z2 Z3 Z4].
    exists (next_context (host w)). rewrite EN.
    repeat split; try done.
    + intros [|k] _.
      * change (init_times 0 w) with w. by rewrite (initAudioContext_fresh w win ctor).
      * by rewrite B, Again.
    + intros [|k] Hk; [lia|]. by rewrite B.
    + by rewrite (Inv_null_graph w HI Ha).
Qed.

Lemma initAudioContext_idempotent_witness :
  ∃ c, audioContext (vars (init_times 3 Examples.loaded)) = Some c
       ∧ count_events is_NewAudioContext (trace (init_times 3 Examples.loaded)) = 1.
Proof.
  destruct (initAudioContext_idempotent Examples.loaded _ StdAudioContext 3
              loaded_reachable eq_refl eq_refl) as (c & Hc & Hn & _).
  - lia.
  - exists c. split; [exact Hc | exact Hn].
Defined.

(** ** Idempotence of connection *)

Lemma initAudioContext_frame w o w1 :
  initAudioContext w = (o, w1) →
  connectedElements (vars w1) = connectedElements (vars w)
  ∧ elements (host w1) = elements (host w)
  ∧ ∃ t, trace w1 = trace w ++ t
         ∧ (∀ el, count_events (is_source_of el) t = 0)
         ∧ count_events is_connected_log t = 0.
Proof.
  intros E. pose proof (initAudioContext_case w) as C. rewrite E in C.
  inversion C; subst; cbn; repeat split; try done.
  - exists []. by rewrite app_nil_r.
  - exists []. by rewrite app_nil_r.
  - by eexists [_].
  - by eexists.
Qed.

Lemma connectAudioElement_known el w :
  Inv w → el ∈ connectedElements (vars w) → connectAudioElement el w = (Returns tt, w).
Proof.
  intros HI Hel.
  assert (Hc : ∃ c, audioContext (vars w) = Some c).
  { destruct (audioContext (vars w)) as [c|] eqn:Hc; [eauto|].
    rewrite (Inv_null_graph w HI Hc) in Hel. set_solver. }
  destruct Hc as [c Hc].
  pose proof HI as G. unfold Inv in G. rewrite Hc in G.
  destruct G as [(win & ctor & Hw & _) _ _ (a & Ha & _) _ _ (s & Hs & _) _ _ _].
  rewrite (connectAudioElement_unfold el w (Some c) w)
    by (by apply (initAudioContext_existing w win c)).
  rewrite Ha, Hs. by rewrite bool_decide_eq_true_2.
Qed.

(** C3: connecting an element that is already in the registry returns
    normally and leaves the whole world (host, variables, trace) as it
    was.  Hence, when a first call has registered the element, a second
    call changes nothing: across both calls one source node was created
    for the element, one success line was logged, and the registry, a
    set, holds the element once. *)
Theorem connectAudioElement_idempotent w el :
  Reachable w →
  (el ∈ connectedElements (vars w) → connectAudioElement el w = (Returns tt, w))
  ∧ (let w1 := run (call_connectAudioElement el) w in
     let w2 := run (call_connectAudioElement el) w1 in
     el ∉ connectedElements (vars w) → el ∈ connectedElements (vars w1) →
     w2 = w1
     ∧ count_events (is_source_of el) (trace w2)
       = 1 + count_events (is_source_of el) (trace w)
     ∧ count_events is_connected_log (trace w2)
       = 1 + count_events is_connected_log (trace w)
     ∧ connectedElements (vars w2) = {[el]} ∪ connectedElements (vars w)).
Proof.
  intros HR. pose proof (Reachable_Inv w HR) as HI. split.
  - by apply connectAudioElement_known.
  - intros w1 w2 Hnot Hin.
    assert (E2 : w2 = w1).
    { unfold w2. cbn [run]. rewrite connectAudioElement_known; [done| |done].
      apply Reachable_Inv. by apply reach_call. }
    rewrite E2. split; [done|].
    destruct (connectAudioElement_case el w HI) as (wi & w' & Ei & HIi & E & C).
    assert (E1 : w1 = w') by (unfold w1; cbn [run]; by rewrite E).
    destruct (initAudioContext_frame w _ wi Ei) as (Hreg & _ & t & Ht & Hcount & Hlog).
    rewrite E1 in *.
    destruct C as [ | | c a s Hc Ha Hs Hel Hsrc W | c a s x Hc Ha Hs Hx Hel Hsrc W ].
    + rewrite Hreg in Hin. done.
    + rewrite Hreg in Hin. done.
    + cbn in Hin. rewrite Hreg in Hin. done.
    + change (trace (wired c a s (destination x) el wi))
        with (trace wi ++ wired_trace c a s (destination x) el
                            (default_crossOrigin el (host wi))).
      rewrite Ht, !count_events_app, Hcount, Hlog.
      repeat split.
      * unfold count_events at 2. cbn. rewrite Pos.eqb_refl. cbn. lia.
      * unfold count_events at 2, wired_trace. cbn [List.filter is_connected_log].
        fold (is_connected_log (ConsoleLog ("✅ Audio element connected (Stereo): "
               +:+ el_id (elements (default_crossOrigin el (host wi)) el)))).
        rewrite is_connected_log_success. cbn. lia.
      * cbn. by rewrite <- Hreg.
Qed.

Lemma connectAudioElement_idempotent_witness :
  connectAudioElement 1%positive Examples.connected = (Returns tt, Examples.connected).
Proof.
  apply (connectAudioElement_idempotent Examples.connected 1%positive
           connected_reachable).
  vm_compute. reflexivity.
Defined.

(** ** The playback-start observer *)

Lemma wired_onplay c a s out el w :
  onplay (elements (host (wired c a s out el w)) el) = Some (PlayingHandler el)
  ∧ ∀ x, x ≠ el →
         onplay (elements (host (wired c a s out el w)) x) = onplay (elements (host w) x).
Proof.
  destruct (default_crossOrigin_frame el (host w)) as (_ & _ & _ & _ & _ & _ & _ & _ & F9 & _).
  split.
  - cbn. by rewrite bool_decide_eq_true_2.
  - intros x Hx. cbn. rewrite !bool_decide_eq_false_2 by done. apply F9.
Qed.

(** C10: a successful first-time connection leaves [element.onplay]
    holding the module's closure, whatever the property held before.  A
    handler another script had assigned there ran on [play] before the
    connection and does not run after it: a [play] event then only logs
    and, if the context is suspended, requests resumption. *)
Theorem connectAudioElement_replaces_onplay w el :
  Reachable w →
  let w1 := run (call_connectAudioElement el) w in
  el ∉ connectedElements (vars w) → el ∈ connectedElements (vars w1) →
  onplay (elements (host w1) el) = Some (PlayingHandler el)
  ∧ (∀ tag, onplay (elements (host w) el) = Some (ForeignHandler tag) →
            trace (run (event_play el) w) = trace w ++ [ForeignHandlerRan tag])
  ∧ (∃ t, trace (run (event_play el) w1)
          = trace w1 ++ ConsoleLog (playing_message el w1) :: t
          ∧ (t = [] ∨ ∃ c, t = [ResumeRequest c]))
  ∧ (∀ tag, ForeignHandlerRan tag
            ∉ drop (length (trace w1)) (trace (run (event_play el) w1))).
Proof.
  intros HR w1 Hnot Hin. pose proof (Reachable_Inv w HR) as HI.
  destruct (connectAudioElement_case el w HI) as (wi & w' & Ei & HIi & E & C).
  assert (E1 : w1 = w') by (unfold w1; cbn [run]; by rewrite E).
  destruct (initAudioContext_frame w _ wi Ei) as (Hreg & Hels & _).
  assert (Hon : onplay (elements (host w1) el) = Some (PlayingHandler el)).
  { rewrite E1 in *.
    destruct C as [ | | c a s Hc Ha Hs Hel Hsrc W | c a s x Hc Ha Hs Hx Hel Hsrc W ].
    - rewrite Hreg in Hin. done.
    - rewrite Hreg in Hin. done.
    - cbn in Hin. rewrite Hreg in Hin. done.
    - apply wired_onplay. }
  assert (Hplay : ∃ t, trace (run (event_play el) w1)
                       = trace w1 ++ ConsoleLog (playing_message el w1) :: t
                       ∧ (t = [] ∨ ∃ c, t = [ResumeRequest c])).
  { cbn [run]. rewrite fire_play_unfold, Hon, run_handler_playing.
    destruct (resumeAudioContext_frame (emit (ConsoleLog (playing_message el w1)) w1))
      as (o & t & Er & Ht).
    rewrite Er. exists t. split; [|exact Ht]. cbn. by rewrite <- app_assoc. }
  split; [exact Hon|]. split; [|split; [exact Hplay|]].
  - intros tag Htag. cbn [run]. by rewrite fire_play_unfold, Htag.
  - intros tag. destruct Hplay as (t & -> & Ht). rewrite drop_app_length.
    intros H. apply elem_of_cons in H as [H|H]; [discriminate H|].
    destruct Ht as [-> | [c ->]].
    + by apply elem_of_nil in H.
    + apply elem_of_cons in H as [H|H]; [discriminate H|]. by apply elem_of_nil in H.
Qed.

Lemma connectAudioElement_replaces_onplay_witness :
  onplay (elements (host Examples.ready) 1%positive) = Some (ForeignHandler 7)
  ∧ onplay (elements (host Examples.connected) 1%positive)
    = Some (PlayingHandler 1%positive).
Proof.
  split; [reflexivity|].
  refine (proj1 (connectAudioElement_replaces_onplay Examples.ready 1%positive
                   ready_reachable _ _)).
  - vm_compute. intros H. discriminate H.
  - vm_compute. reflexivity.
Defined.

(** ** Failure of the wiring *)

Lemma default_crossOrigin_value el h :
  crossOrigin (elements (default_crossOrigin el h) el)
  = if truthy_string (crossOrigin (elements h el)) then crossOrigin (elements h el)
    else Some "anonymous".
Proof.
  unfold default_crossOrigin. destruct (truthy_string _); [done|].
  cbn. by rewrite bool_decide_eq_true_2.
Qed.

(** C1, counterexample: element 2 of the example page is bound to a source
    node of another script and has no crossOrigin.  With the graph already
    built, connecting it fails, and its crossOrigin has become
    "anonymous". *)
Lemma wiring_failure_changes_crossOrigin : ¬ wiring_failure_leaves_state_unchanged.
Proof.
  intros H.
  destruct (H Examples.ready 2%positive 0 Examples.ready 1 4 InvalidStateError
              (with_host (default_crossOrigin 2%positive) Examples.ready)
              ready_reachable) as [Hh _].
  - vm_compute. reflexivity.
  - reflexivity.
  - reflexivity.
  - vm_compute. intros Hin. discriminate Hin.
  - apply wiring_bound. reflexivity.
  - apply (f_equal (fun h => crossOrigin (elements h 2%positive))) in Hh.
    vm_compute in Hh. discriminate Hh.
Qed.

(** On a freshly loaded module the same call also builds the whole graph
    before it fails. *)
Example wiring_failure_after_init :
  trace (run (call_connectAudioElement 2%positive) Examples.loaded)
  = trace Examples.ready ++ [ConsoleWarn wiring_warning InvalidStateError]
  ∧ audioContext (vars Examples.loaded) = None
  ∧ audioContext (vars (run (call_connectAudioElement 2%positive) Examples.loaded)) = Some 0
  ∧ isAudioContextReady (vars (run (call_connectAudioElement 2%positive) Examples.loaded))
    = true.
Proof. vm_compute. repeat split; reflexivity. Qed.

(** C1, amended: when the [try] block throws, the call still returns
    normally and logs one warning.  Relative to the world [wi] in which
    [initAudioContext] has run (which is the world before the call when
    the graph already existed), the variables, and so the registry, are
    unchanged, no node and no connection has been added, and no element
    has changed except that the crossOrigin of [el] has been set to
    "anonymous" if it was null or empty. *)
Theorem connectAudioElement_wiring_failure w el c wi a s e w' :
  Reachable w →
  initAudioContext w = (Returns (Some c), wi) →
  analyser (vars wi) = Some a → splitter (vars wi) = Some s →
  el ∉ connectedElements (vars wi) →
  wiring c a s el wi = (Throws e, w') →
  let w2 := run (call_connectAudioElement el) w in
  connectAudioElement el w = (Returns tt, w2)
  ∧ (∀ c0, audioContext (vars w) = Some c0 → wi = w)
  ∧ trace w2 = (trace wi ++ [ConsoleWarn wiring_warning e])
  ∧ vars w2 = vars wi
  ∧ (el ∉ connectedElements (vars w2))
  ∧ contexts (host w2) = contexts (host wi)
  ∧ nodes (host w2) = nodes (host wi)
  ∧ next_node (host w2) = next_node (host wi)
  ∧ connections (host w2) = connections (host wi)
  ∧ (∀ x, x ≠ el → elements (host w2) x = elements (host wi) x)
  ∧ el_source (elements (host w2) el) = el_source (elements (host wi) el)
  ∧ onplay (elements (host w2) el) = onplay (elements (host wi) el)
  ∧ crossOrigin (elements (host w2) el)
    = (if truthy_string (crossOrigin (elements (host wi) el))
       then crossOrigin (elements (host wi) el)
       else Some "anonymous").
Proof.
  intros HR Ei Ha Hs Hel W. cbv zeta. cbn [run].
  pose proof (Reachable_Inv w HR) as HI.
  destruct (initAudioContext_Inv w _ wi HI Ei) as [HIi Hret].
  assert (Hc : audioContext (vars wi) = Some c) by congruence.
  pose proof HIi as G. unfold Inv in G. rewrite Hc in G.
  destruct G as [_ _ (x & Hx & Hd & Hdn) (a' & Ha' & Hal & Han) _ _ (s' & Hs' & Hsl & Hsn) _ _ _].
  assert (a' = a) as -> by congruence. assert (s' = s) as -> by congruence.
  destruct (el_source (elements (host wi) el)) eqn:Hsrc.
  2:{ rewrite (wiring_unbound c a s el wi x Hsrc Hal Han Hsl Hsn Hx Hd Hdn) in W.
      discriminate W. }
  rewrite (wiring_bound c a s el wi Hsrc) in W.
  assert (e = InvalidStateError) as -> by congruence.
  assert (E : connectAudioElement el w = (Returns tt, refused el wi)).
  { rewrite (connectAudioElement_unfold el w (Some c) wi Ei), Ha, Hs.
    rewrite bool_decide_eq_false_2 by done.
    unfold try_catch. by rewrite (wiring_bound c a s el wi Hsrc). }
  rewrite E. cbn [snd].
  destruct (default_crossOrigin_frame el (host wi))
    as (F1 & F2 & F3 & F4 & F5 & F6 & F7 & F8 & F9 & F10).
  repeat split; try done.
  - intros c0 Hc0. pose proof (initAudioContext_case w) as C. rewrite Ei in C.
    inversion C; subst; congruence.
  - change (host (refused el wi)) with (default_crossOrigin el (host wi)).
    by rewrite F7.
  - apply default_crossOrigin_value.
Qed.

Lemma connectAudioElement_wiring_failure_witness :
  connectAudioElement 2%positive Examples.ready
  = (Returns tt, run (call_connectAudioElement 2%positive) Examples.ready).
Proof.
  refine (proj1 (connectAudioElement_wiring_failure Examples.ready 2%positive 0
                   Examples.ready 1 4 InvalidStateError
                   (with_host (default_crossOrigin 2%positive) Examples.ready)
                   ready_reachable _ _ _ _ _)).
  - vm_compute. reflexivity.
  - reflexivity.
  - reflexivity.
  - vm_compute. intros Hin. discriminate Hin.
  - apply wiring_bound. reflexivity.
Defined.

(** * Further properties *)

(** ** The shape of a call *)

Lemma rest_step_same w : rest_step w w.
Proof.
  apply (rest_idle w w []).
  - reflexivity.
  - reflexivity.
  - apply same_graph_refl.
  - reflexivity.
  - by rewrite app_nil_r.
  - constructor.
Qed.

Lemma rest_step_trace w t :
  idle t →
  rest_step w {| env := env w; host := host w; vars := vars w; trace := trace w ++ t |}.
Proof.
  intros Ht. apply (rest_idle w _ t).
  - reflexivity.
  - reflexivity.
  - apply same_graph_refl.
  - reflexivity.
  - reflexivity.
  - exact Ht.
Qed.

Lemma rest_step_vars w m :
  same_graph (vars w) m → connectedElements m = connectedElements (vars w) →
  rest_step w (with_vars (λ _, m) w).
Proof.
  intros Hs Hr. apply (rest_idle w _ []).
  - reflexivity.
  - reflexivity.
  - exact Hs.
  - exact Hr.
  - cbn. by rewrite app_nil_r.
  - constructor.
Qed.

Lemma rest_step_getAudioData w : rest_step w (snd (getAudioData w)).
Proof.
  destruct (analyser (vars w)) as [a|] eqn:Ha;
    [destruct (dataArray (vars w)) as [d0|] eqn:Hd|].
  - rewrite (getAudioData_ready w a d0) by done.
    apply (rest_step_vars w (set_dataArray _ (vars w))); [|reflexivity].
    constructor; try reflexivity. cbn. by rewrite Hd, length_fill.
  - rewrite getAudioData_null by auto. apply rest_step_same.
  - rewrite getAudioData_null by auto. apply rest_step_same.
Qed.

Lemma rest_step_getStereoData w : rest_step w (snd (getStereoData w)).
Proof.
  destruct (analyserL (vars w)) as [l|] eqn:Hl;
    [|rewrite getStereoData_null by auto; apply rest_step_same].
  destruct (analyserR (vars w)) as [r|] eqn:Hr;
    [|rewrite getStereoData_null by auto; apply rest_step_same].
  destruct (dataArrayL (vars w)) as [dl|] eqn:Hdl;
    [|rewrite getStereoData_null by auto; apply rest_step_same].
  destruct (dataArrayR (vars w)) as [dr|] eqn:Hdr;
    [|rewrite getStereoData_null by auto 6; apply rest_step_same].
  rewrite (getStereoData_ready w l r dl dr) by done.
  apply (rest_step_vars w (vars (stereo_world l r dl dr w))); [|reflexivity].
  constructor; try reflexivity; cbn.
  - by rewrite Hdl, length_fill.
  - by rewrite Hdr, length_fill.
Qed.

Lemma init_step_of_case w o wi : initAudioContext w = (o, wi) → init_step w wi.
Proof.
  intros E. pose proof (initAudioContext_case w) as C. rewrite E in C.
  inversion C; subst; by econstructor.
Qed.

(** Every call is an initialization step followed by a step that either
    leaves the graph alone or is a connection. *)
Lemma run_steps c w :
  Inv w → ∃ wi, init_step w wi ∧ Inv wi ∧ rest_step wi (run c w).
Proof.
  intros HI. destruct c as [ | el | | | | | el ]; unfold run.
  - destruct (initAudioContext w) as [o w1] eqn:E.
    destruct (initAudioContext_Inv w o w1 HI E) as [HI1 _].
    exists w1. split; [by eapply init_step_of_case|]. split; [exact HI1|].
    apply rest_step_same.
  - destruct (connectAudioElement_case el w HI) as (w1 & w2 & Ei & HI1 & E & C).
    exists w1. split; [by eapply init_step_of_case|]. split; [exact HI1|].
    rewrite E. by apply (rest_connect w1 el).
  - exists w. split; [constructor|]. split; [exact HI|]. apply rest_step_getAudioData.
  - exists w. split; [constructor|]. split; [exact HI|]. apply rest_step_getStereoData.
  - exists w. split; [constructor|]. split; [exact HI|].
    rewrite getAverageVolume_world. apply rest_step_getAudioData.
  - exists w. split; [constructor|]. split; [exact HI|].
    destruct (resumeAudioContext_frame w) as (o & t & E & Ht). rewrite E.
    apply rest_step_trace. destruct Ht as [-> | [c ->]]; by repeat constructor.
  - exists w. split; [constructor|]. split; [exact HI|].
    rewrite fire_play_unfold.
    destruct (onplay (elements (host w) el)) as [[tag|el']|].
    + apply (rest_step_trace w [ForeignHandlerRan tag]). by repeat constructor.
    + rewrite run_handler_playing.
      destruct (resumeAudioContext_frame (emit (ConsoleLog (playing_message el' w)) w))
        as (o & t & E & Ht).
      rewrite E. apply (rest_idle w _ (ConsoleLog (playing_message el' w) :: t)).
      * reflexivity.
      * reflexivity.
      * apply same_graph_refl.
      * reflexivity.
      * cbn. by rewrite <- app_assoc.
      * destruct Ht as [-> | [c ->]]; by repeat constructor.
    + apply rest_step_same.
Qed.

(** Induction over the reachable worlds, step by step. *)
Lemma Reachable_steps (P : World → Prop) :
  (∀ e h, P (initial_world e h)) →
  (∀ w wi, Inv w → P w → init_step w wi → P wi) →
  (∀ wi w', Inv wi → P wi → rest_step wi w' → P w') →
  (∀ w h', Inv w → P w → host_step (host w) h' → P (with_host (λ _, h') w)) →
  (∀ w d d', Inv w → P w → dataArray (vars w) = Some d → length d' = length d →
             P (with_vars (set_dataArray (Some d')) w)) →
  ∀ w, Reachable w → P w.
Proof.
  intros Hload Hinit Hrest Hhost Hwrite w HR.
  induction HR as [e h | c w HR IH | h' w HR IH Hs | d d' w HR IH Hd Hlen ].
  - apply Hload.
  - destruct (run_steps c w (Reachable_Inv w HR)) as (wi & Hi & HIi & Hr).
    apply (Hrest wi); [exact HIi | | exact Hr].
    by apply (Hinit w wi (Reachable_Inv w HR)).
  - by apply Hhost; [apply Reachable_Inv | |].
  - by apply (Hwrite w d d'); [apply Reachable_Inv | | |].
Qed.

(** ** What the module asks the host to connect *)

Lemma idle_not_wiring t : idle t → Forall (λ ev, is_wiring ev = false) t.
Proof.
  intros Ht. eapply Forall_impl; [exact Ht|]. intros ev H. unfold is_graph_event in H.
  destruct (is_wiring ev); [|done]. by rewrite orb_true_r in H.
Qed.

Lemma wiring_event_ok_mono c d t t' ev :
  wiring_event_ok c d t ev → wiring_event_ok c d (t ++ t') ev.
Proof.
  destruct ev; try done. cbn.
  intros [H|[H|[H|(H1 & H2 & H3 & el & H4)]]]; auto.
  right. right. right. repeat split; try done. exists el. apply elem_of_app. by left.
Qed.

Lemma wiring_event_ok_quiet c d t ev : is_wiring ev = false → wiring_event_ok c d t ev.
Proof. by destruct ev. Qed.

Lemma wiring_ok_app c d t t' :
  Forall (wiring_event_ok c d t) t →
  Forall (wiring_event_ok c d (t ++ t')) t' →
  Forall (wiring_event_ok c d (t ++ t')) (t ++ t').
Proof.
  intros H H'. apply Forall_app. split; [|exact H'].
  eapply Forall_impl; [exact H|]. intros ev. apply wiring_event_ok_mono.
Qed.

Lemma layout_frame d c w w' :
  layout d c w → host_step (host w) (host w') → same_graph (vars w) (vars w') →
  layout d c w'.
Proof.
  intros [(x & Hx & Hd) La Ll Lr Ls Ln] [Hn _ Hc] [_ _ Sa Sl Sr Ss _ _ _].
  destruct (Hc c x Hx) as (x' & Hx' & Hd').
  constructor; try congruence; [|lia].
  exists x'. split; [done | congruence].
Qed.

Lemma WiringInv_frame w w' t :
  WiringInv w → host_step (host w) (host w') → same_graph (vars w) (vars w') →
  trace w' = trace w ++ t → Forall (λ ev, is_wiring ev = false) t →
  WiringInv w'.
Proof.
  intros HW Hh Hs Ht Hq. unfold WiringInv in *.
  rewrite (sg_audioContext _ _ Hs). destruct (audioContext (vars w)) as [c|].
  - destruct HW as (d & L & E1 & E2 & F). exists d. rewrite Ht.
    split; [by eapply layout_frame|].
    split; [apply elem_of_app; by left|]. split; [apply elem_of_app; by left|].
    apply wiring_ok_app; [exact F|].
    eapply Forall_impl; [exact Hq|]. intros ev. apply wiring_event_ok_quiet.
  - rewrite Ht. apply Forall_app. by split.
Qed.

Lemma WiringInv_built w win ctor :
  window (env w) = Some win → audioContext (vars w) = None → AudioCtor win = Some ctor →
  WiringInv w → WiringInv (built w).
Proof.
  intros Hw Hn Hc HW. unfold WiringInv in *. rewrite Hn in HW. cbn.
  exists (next_node (host w)). split; [|split; [|split]].
  - constructor; cbn; try done; [|lia].
    eexists. rewrite lookup_insert_eq. by split.
  - apply elem_of_app. right. cbn. set_solver.
  - apply elem_of_app. right. cbn. set_solver.
  - apply Forall_app. split.
    + eapply Forall_impl; [exact HW|]. intros ev. apply wiring_event_ok_quiet.
    + unfold built_trace.
      repeat first [apply Forall_nil_2 | apply Forall_cons_2]; cbn;
        first [done | by left | by (right; left)].
Qed.

Lemma WiringInv_wired c a s x el w :
  Inv w → audioContext (vars w) = Some c →
  analyser (vars w) = Some a → splitter (vars w) = Some s →
  contexts (host w) !! c = Some x →
  WiringInv w → WiringInv (wired c a s (destination x) el w).
Proof.
  intros HI Hc Ha Hs Hx HW. unfold WiringInv in *. rewrite Hc in HW.
  destruct HW as (d & L & E1 & E2 & F).
  destruct (default_crossOrigin_frame el (host w)) as (F1 & _ & F3 & F4 & _).
  pose proof L as [(x' & Hx' & Hd) La Ll Lr Ls Ln].
  assert (x' = x) as -> by congruence.
  assert (a = S d) as -> by congruence.
  assert (s = S (S (S (S d)))) as -> by congruence.
  change (audioContext (vars (wired c (S d) (S (S (S (S d)))) (destination x) el w)))
    with (audioContext (vars w)).
  rewrite Hc. exists d.
  change (trace (wired c (S d) (S (S (S (S d)))) (destination x) el w))
    with (trace w ++ wired_trace c (S d) (S (S (S (S d)))) (destination x) el
                       (default_crossOrigin el (host w))).
  split; [|split; [|split]].
  - apply (layout_frame d c w); [exact L | | by constructor].
    eapply host_step_trans; [apply host_step_default_crossOrigin | apply host_step_wired].
  - apply elem_of_app. by left.
  - apply elem_of_app. by left.
  - apply wiring_ok_app; [exact F|].
    unfold wired_trace. rewrite F4, Hd.
    assert (Hin : CreateMediaElementSource c el (next_node (host w))
                  ∈ trace w ++ [CreateMediaElementSource c el (next_node (host w));
                                Connect (next_node (host w)) 0 (S d);
                                Connect (next_node (host w)) 0 (S (S (S (S d))));
                                Connect (S d) 0 d;
                                ConsoleLog ("✅ Audio element connected (Stereo): "
                                  +:+ el_id (elements (default_crossOrigin el (host w)) el))]).
    { apply elem_of_app. right. apply elem_of_cons. by left. }
    repeat first [apply Forall_nil_2 | apply Forall_cons_2]; cbn.
    + done.
    + right. right. right. repeat split; [done | by left | by exists el].
    + right. right. right. repeat split; [done | by right | by exists el].
    + right. right. left. done.
    + done.
Qed.

Lemma Reachable_WiringInv w : Reachable w → WiringInv w.
Proof.
  apply Reachable_steps.
  - intros e h. constructor.
  - intros w0 wi HI HW [ | win Hw Hn Hc | win ctor Hw Hn Hc ].
    + exact HW.
    + apply (WiringInv_frame w0 _ [ConsoleError unsupported_message]);
        [exact HW | apply host_step_refl | apply same_graph_refl | reflexivity
        | by repeat constructor].
    + by apply (WiringInv_built w0 win ctor).
  - intros wi w' HI HW [w'' t He Hh Hs Hr Ht Hq | el w'' C].
    + apply (WiringInv_frame wi w'' t);
        [exact HW | rewrite Hh; apply host_step_refl | exact Hs | exact Ht
        | by apply idle_not_wiring].
    + destruct C as [ | | c a s Hc Ha Hs Hel Hsrc W | c a s x Hc Ha Hs Hx Hel Hsrc W ].
      * exact HW.
      * exact HW.
      * apply (WiringInv_frame wi _ [ConsoleWarn wiring_warning InvalidStateError]);
          [exact HW | apply host_step_default_crossOrigin | apply same_graph_refl
          | reflexivity | by repeat constructor].
      * by apply WiringInv_wired.
  - intros w0 h' HI HW Hs.
    apply (WiringInv_frame w0 _ []);
      [exact HW | exact Hs | apply same_graph_refl | cbn; by rewrite app_nil_r
      | constructor].
  - intros w0 d d' HI HW Hd Hlen.
    apply (WiringInv_frame w0 _ []);
      [exact HW | apply host_step_refl | | cbn; by rewrite app_nil_r | constructor].
    constructor; try reflexivity. cbn. rewrite Hd. cbn. congruence.
Qed.

(** ** The registry against the trace *)

Lemma count_events_idle p t :
  (∀ ev, p ev = true → is_graph_event ev = true) → idle t → count_events p t = 0.
Proof.
  intros Hp Ht. unfold count_events. induction Ht as [|ev t Hev _ IH]; [done|].
  cbn. destruct (p ev) eqn:E; [|exact IH].
  rewrite (Hp ev E) in Hev. discriminate Hev.
Qed.

Lemma is_source_of_graph_event el ev : is_source_of el ev = true → is_graph_event ev = true.
Proof.
  destruct ev; try discriminate. intros _. reflexivity.
Qed.

Lemma is_connected_log_graph_event ev : is_connected_log ev = true → is_graph_event ev = true.
Proof. intros H. unfold is_graph_event. rewrite H. by rewrite orb_true_r. Qed.

Lemma Ledger_frame w w' t :
  Ledger w → connectedElements (vars w') = connectedElements (vars w) →
  trace w' = trace w ++ t →
  (∀ el, count_events (is_source_of el) t = 0) → count_events is_connected_log t = 0 →
  Ledger w'.
Proof.
  intros [L1 L2] Hr Ht Hs Hl. split.
  - intros el. rewrite Ht, Hr, count_events_app, Hs, L1. lia.
  - rewrite Ht, Hr, count_events_app, Hl, L2. lia.
Qed.

Lemma Ledger_wired c a s out el w :
  el ∉ connectedElements (vars w) → Ledger w → Ledger (wired c a s out el w).
Proof.
  intros Hel [L1 L2]. unfold Ledger.
  change (trace (wired c a s out el w))
    with (trace w ++ wired_trace c a s out el (default_crossOrigin el (host w))).
  change (connectedElements (vars (wired c a s out el w)))
    with ({[el]} ∪ connectedElements (vars w)).
  split.
  - intros el0. rewrite count_events_app, L1.
    unfold count_events at 1, wired_trace. cbn [List.filter is_source_of].
    destruct (Pos.eqb_spec el el0) as [->|Hne].
    + rewrite bool_decide_eq_false_2 by done.
      rewrite bool_decide_eq_true_2 by set_solver. reflexivity.
    + cbn. rewrite Nat.add_0_r.
      rewrite (bool_decide_ext (el0 ∈ {[el]} ∪ connectedElements (vars w))
                 (el0 ∈ connectedElements (vars w))); [reflexivity|].
      rewrite elem_of_union, elem_of_singleton. split; [|by right].
      intros [Heq|Hin]; [congruence | exact Hin].
  - rewrite count_events_app, L2.
    unfold count_events at 1, wired_trace. cbn [List.filter is_connected_log].
    fold (is_connected_log (ConsoleLog ("✅ Audio element connected (Stereo): "
           +:+ el_id (elements (default_crossOrigin el (host w)) el)))).
    rewrite is_connected_log_success. cbn.
    rewrite size_union by set_solver. rewrite size_singleton. lia.
Qed.

Lemma Reachable_Ledger w : Reachable w → Ledger w.
Proof.
  apply Reachable_steps.
  - intros e h. split; [intros el|]; reflexivity.
  - intros w0 wi HI HL [ | win Hw Hn Hc | win ctor Hw Hn Hc ].
    + exact HL.
    + by apply (Ledger_frame w0 _ [ConsoleError unsupported_message]).
    + by apply (Ledger_frame w0 _ (built_trace (host w0))).
  - intros wi w' HI HL [w'' t He Hh Hs Hr Ht Hq | el w'' C].
    + apply (Ledger_frame wi w'' t); [exact HL | exact Hr | exact Ht | |].
      * intros el. apply count_events_idle; [apply is_source_of_graph_event | exact Hq].
      * apply count_events_idle; [apply is_connected_log_graph_event | exact Hq].
    + destruct C as [ | | c a s Hc Ha Hs Hel Hsrc W | c a s x Hc Ha Hs Hx Hel Hsrc W ].
      * exact HL.
      * exact HL.
      * by apply (Ledger_frame wi _ [ConsoleWarn wiring_warning InvalidStateError]).
      * by apply Ledger_wired.
  - intros w0 h' HI HL Hs. apply (Ledger_frame w0 _ []); try done. cbn. by rewrite app_nil_r.
  - intros w0 d d' HI HL Hd Hlen. apply (Ledger_frame w0 _ []); try done.
    cbn. by rewrite app_nil_r.
Qed.

(** * The further properties *)

(** ** Initialization *)

(** X1: [initAudioContext] never throws; it returns null exactly when
    there is no [window] or the window has no audio-context constructor,
    and a context it returns is the one [audioContext] holds afterwards and
    exists on the host. *)
Theorem initAudioContext_succeeds_iff w :
  Reachable w →
  (∃ r, fst (initAudioContext w) = Returns r)
  ∧ (fst (initAudioContext w) = Returns None
     ↔ window (env w) = None
       ∨ ∃ win, window (env w) = Some win ∧ AudioCtor win = None)
  ∧ (∀ c, fst (initAudioContext w) = Returns (Some c) →
          audioContext (vars (snd (initAudioContext w))) = Some c
          ∧ is_Some (contexts (host (snd (initAudioContext w))) !! c)).
Proof.
  intros HR. pose proof (Reachable_Inv w HR) as HI.
  destruct (initAudioContext w) as [o w1] eqn:E.
  destruct (initAudioContext_Inv w o w1 HI E) as [HI1 ->]. cbn [fst snd].
  pose proof (initAudioContext_case w) as C. rewrite E in C.
  split; [by eexists|]. split.
  - inversion C as [Hw | win c Hw Ha | win Hw Ha Hc | win ctor Hw Ha Hc]; subst.
    + split; [by left | intros _; congruence].
    + split; [intros Hret; congruence|].
      unfold Inv in HI. rewrite Ha in HI.
      destruct (gi_ctor _ _ _ _ HI) as (win' & ctor & Hw' & Hc').
      intros [Hn | (win'' & Hw'' & Hc'')]; congruence.
    + split; [intros _; right; by exists win | intros _; cbn; congruence].
    + split; [intros Hret; cbn in Hret; congruence|].
      intros [Hn | (win'' & Hw'' & Hc'')]; congruence.
  - intros c Hc. assert (Ha : audioContext (vars w1) = Some c) by congruence.
    split; [exact Ha|]. unfold Inv in HI1. rewrite Ha in HI1.
    destruct (gi_ctx _ _ _ _ HI1) as (x & Hx & _). by exists x.
Qed.

Lemma initAudioContext_succeeds_iff_witness :
  ∃ r, fst (initAudioContext Examples.ready) = Returns r.
Proof.
  exact (proj1 (initAudioContext_succeeds_iff Examples.ready ready_reachable)).
Defined.

(** X2: the exported ready flag is accurate, and initialization is all or
    nothing: in every reachable world either the flag is false and every
    variable is as at load time, or the flag is true and the context, the
    three analysers, the splitter and the three buffers are all set. *)
Theorem ready_flag_accurate w :
  Reachable w →
  (isAudioContextReady (vars w) = true ↔ is_Some (audioContext (vars w)))
  ∧ match isAudioContextReady (vars w) with
    | false => vars w = initial_vars
    | true =>
        is_Some (audioContext (vars w)) ∧ is_Some (analyser (vars w))
        ∧ is_Some (analyserL (vars w)) ∧ is_Some (analyserR (vars w))
        ∧ is_Some (splitter (vars w)) ∧ is_Some (dataArray (vars w))
        ∧ is_Some (dataArrayL (vars w)) ∧ is_Some (dataArrayR (vars w))
    end.
Proof.
  intros HR. pose proof (Reachable_Inv w HR) as HI. unfold Inv in HI.
  destruct (audioContext (vars w)) as [c|] eqn:Hc.
  - destruct HI as [_ Hr _ (a & Ha & _) (l & Hl & _) (r & Hr' & _) (s & Hs & _)
                      (d & Hd & _) (dl & HdL & _) (dr & HdR & _)].
    rewrite Hr. split; [by split; eauto|].
    rewrite Ha, Hl, Hr', Hs, Hd, HdL, HdR. repeat split; eauto.
  - rewrite HI. cbn. split; [|done]. split; [done|]. intros [? ?]. done.
Qed.

Lemma ready_flag_accurate_witness :
  isAudioContextReady (vars Examples.connected) = true
  ↔ is_Some (audioContext (vars Examples.connected)).
Proof.
  exact (proj1 (ready_flag_accurate Examples.connected connected_reachable)).
Defined.

(** X3: once built, the graph stays as built: the destination, the three
    analysers and the splitter are five different nodes of the module's
    context, each analyser with window 512 and smoothing 0.8, the splitter
    with two outputs, and the module has asked for the splitter's output 0
    to feed the left analyser and its output 1 the right one. *)
Theorem graph_shape w c :
  Reachable w → audioContext (vars w) = Some c →
  ∃ x a l r s,
    contexts (host w) !! c = Some x
    ∧ analyser (vars w) = Some a ∧ analyserL (vars w) = Some l
    ∧ analyserR (vars w) = Some r ∧ splitter (vars w) = Some s
    ∧ NoDup [destination x; a; l; r; s]
    ∧ nodes (host w) !! destination x
      = Some {| node_context := c; node_kind := AudioDestinationNode |}
    ∧ nodes (host w) !! a
      = Some {| node_context := c; node_kind := AnalyserNode 512 (Qmake 4 5) |}
    ∧ nodes (host w) !! l
      = Some {| node_context := c; node_kind := AnalyserNode 512 (Qmake 4 5) |}
    ∧ nodes (host w) !! r
      = Some {| node_context := c; node_kind := AnalyserNode 512 (Qmake 4 5) |}
    ∧ nodes (host w) !! s
      = Some {| node_context := c; node_kind := ChannelSplitterNode 2 |}
    ∧ Connect s 0 l ∈ trace w ∧ Connect s 1 r ∈ trace w.
Proof.
  intros HR Hc.
  pose proof (Reachable_Inv w HR) as HI. unfold Inv in HI. rewrite Hc in HI.
  pose proof (Reachable_WiringInv w HR) as HW. unfold WiringInv in HW. rewrite Hc in HW.
  destruct HW as (d & [(x & Hx & Hd) La Ll Lr Ls Ln] & E1 & E2 & _).
  destruct HI as [_ _ (x' & Hx' & _ & Hdn) (a & Ha & _ & Han) (l & Hl & _ & Hln)
                    (r & Hr & _ & Hrn) (s & Hs & _ & Hsn) _ _ _].
  assert (x' = x) as -> by congruence.
  assert (a = S d) as -> by congruence.
  assert (l = S (S d)) as -> by congruence.
  assert (r = S (S (S d))) as -> by congruence.
  assert (s = S (S (S (S d)))) as -> by congruence.
  exists x, (S d), (S (S d)), (S (S (S d))), (S (S (S (S d)))).
  rewrite Hd in *. repeat split; try done.
  repeat (apply NoDup_cons; split;
          [rewrite ?elem_of_cons, elem_of_nil; lia|]).
  apply NoDup_nil_2.
Qed.

Lemma graph_shape_witness :
  ∃ x a l r s,
    contexts (host Examples.connected) !! 0 = Some x
    ∧ analyser (vars Examples.connected) = Some a
    ∧ analyserL (vars Examples.connected) = Some l
    ∧ analyserR (vars Examples.connected) = Some r
    ∧ splitter (vars Examples.connected) = Some s
    ∧ NoDup [destination x; a; l; r; s].
Proof.
  destruct (graph_shape Examples.connected 0 connected_reachable eq_refl)
    as (x & a & l & r & s & H1 & H2 & H3 & H4 & H5 & H6 & _).
  exists x, a, l, r, s. exact (conj H1 (conj H2 (conj H3 (conj H4 (conj H5 H6))))).
Defined.

(** X4: the connections the module asks for, over its whole life: none
    before the graph exists; afterwards only the two splitter branches,
    the main analyser into the destination, and output 0 of a source node
    it created into the main analyser or the splitter.  So the left and
    right analysers never get an outgoing connection, and nothing but the
    main analyser is connected to the destination. *)
Theorem connections_requested w :
  Reachable w →
  match audioContext (vars w) with
  | None => ∀ src o dst, Connect src o dst ∉ trace w
  | Some c =>
      ∃ x a l r s,
        contexts (host w) !! c = Some x
        ∧ analyser (vars w) = Some a ∧ analyserL (vars w) = Some l
        ∧ analyserR (vars w) = Some r ∧ splitter (vars w) = Some s
        ∧ ∀ src o dst, Connect src o dst ∈ trace w →
            ((src = s ∧ o = 0 ∧ dst = l)
             ∨ (src = s ∧ o = 1 ∧ dst = r)
             ∨ (src = a ∧ o = 0 ∧ dst = destination x)
             ∨ (o = 0 ∧ (dst = a ∨ dst = s)
                ∧ ∃ el, CreateMediaElementSource c el src ∈ trace w))
            ∧ src ≠ l ∧ src ≠ r
            ∧ (dst = destination x → src = a)
  end.
Proof.
  intros HR. pose proof (Reachable_WiringInv w HR) as HW. unfold WiringInv in HW.
  destruct (audioContext (vars w)) as [c|] eqn:Hc.
  - destruct HW as (d & [(x & Hx & Hd) La Ll Lr Ls Ln] & _ & _ & F).
    exists x, (S d), (S (S d)), (S (S (S d))), (S (S (S (S d)))).
    repeat split; try done.
    all: rewrite Forall_forall in F; specialize (F _ H); cbn in F; rewrite ?Hd.
    + destruct F as [F|[F|[F|(F1 & F2 & F3 & F4)]]]; auto.
      right. right. right. done.
    + destruct F as [F|[F|[F|(F1 & F2 & F3 & F4)]]]; lia.
    + destruct F as [F|[F|[F|(F1 & F2 & F3 & F4)]]]; lia.
    + destruct F as [F|[F|[F|(F1 & F2 & F3 & F4)]]]; lia.
  - intros src o dst Hin. rewrite Forall_forall in HW.
    specialize (HW _ Hin). discriminate HW.
Qed.

Lemma connections_requested_witness :
  (∀ src o dst, Connect src o dst ∉ trace Examples.loaded)
  ∧ (∀ src o dst, Connect src o dst ∈ trace Examples.connected → src ≠ 2 ∧ src ≠ 3).
Proof.
  split; [exact (connections_requested Examples.loaded loaded_reachable)|].
  assert (Hc : audioContext (vars Examples.connected) = Some 0)
    by (vm_compute; reflexivity).
  pose proof (connections_requested Examples.connected connected_reachable) as HC.
  rewrite Hc in HC.
  destruct HC as (x & a & l & r & s & Hx & Ha & Hl & Hr & Hs & H).
  intros src o dst Hin. destruct (H src o dst Hin) as (_ & Hl' & Hr' & _).
  assert (El : l = 2) by (vm_compute in Hl; congruence).
  assert (Er : r = 3) by (vm_compute in Hr; congruence).
  subst l r. exact (conj Hl' Hr').
Defined.

(** X5: an element is wired at most once in the life of the module: the
    trace of a reachable world shows one created source node for each
    registered element and none for any other, and as many success lines
    as the registry has elements. *)
Theorem wired_at_most_once w :
  Reachable w →
  (∀ el, count_events (is_source_of el) (trace w)
         = if bool_decide (el ∈ connectedElements (vars w)) then 1 else 0)
  ∧ count_events is_connected_log (trace w) = size (connectedElements (vars w)).
Proof. apply Reachable_Ledger. Qed.

Lemma wired_at_most_once_witness :
  count_events is_connected_log (trace Examples.connected)
  = size (connectedElements (vars Examples.connected)).
Proof.
  exact (proj2 (wired_at_most_once Examples.connected connected_reachable)).
Defined.

(** ** Connection *)

Lemma add_connection_in e l : e ∈ add_connection e l.
Proof.
  unfold add_connection. case_bool_decide; [done|]. apply elem_of_app. right.
  apply elem_of_cons. by left.
Qed.

Lemma add_connection_mono e e' l : e ∈ l → e ∈ add_connection e' l.
Proof.
  intros H. unfold add_connection. case_bool_decide; [done|]. apply elem_of_app. by left.
Qed.

(** The call goes through when the graph can be had, the element is new
    and the element is not bound to a source node. *)
Lemma connectAudioElement_wired w el win ctor :
  Reachable w → window (env w) = Some win → AudioCtor win = Some ctor →
  el ∉ connectedElements (vars w) → el_source (elements (host w) el) = false →
  ∃ wi c a s x,
    init_step w wi ∧ Inv wi
    ∧ audioContext (vars wi) = Some c ∧ analyser (vars wi) = Some a
    ∧ splitter (vars wi) = Some s ∧ contexts (host wi) !! c = Some x
    ∧ elements (host wi) = elements (host w)
    ∧ connectedElements (vars wi) = connectedElements (vars w)
    ∧ connectAudioElement el w = (Returns tt, wired c a s (destination x) el wi).
Proof.
  intros HR Hw Hc Hel Hsrc. pose proof (Reachable_Inv w HR) as HI.
  destruct (connectAudioElement_case el w HI) as (wi & w2 & Ei & HIi & E & C).
  destruct (initAudioContext_frame w _ wi Ei) as (Hreg & Hels & _).
  pose proof (initAudioContext_case w) as C0. rewrite Ei in C0.
  assert (Hsome : is_Some (audioContext (vars wi))).
  { inversion C0; subst; try congruence; [by eexists | by eexists]. }
  destruct C as [ Hn | c Ha Hin | c a s Ha Han Hs Hnot Hb W | c a s x Ha Han Hs Hx Hnot Hb W ].
  - rewrite Hn in Hsome. by destruct Hsome.
  - rewrite Hreg in Hin. done.
  - rewrite Hels in Hb. congruence.
  - exists wi, c, a, s, x. repeat split; try done. by eapply init_step_of_case.
Qed.

(** X6: in a window with a constructor, connecting an element that is not
    registered and not bound to a source node succeeds: the call returns
    normally, the element is registered and bound to a new source node of
    the module's context, that node feeds the main analyser and the
    splitter, the main analyser feeds the destination, [onplay] holds the
    module's closure and the element has a crossOrigin. *)
Theorem connectAudioElement_succeeds w el win ctor :
  Reachable w → window (env w) = Some win → AudioCtor win = Some ctor →
  el ∉ connectedElements (vars w) → el_source (elements (host w) el) = false →
  let w' := run (call_connectAudioElement el) w in
  connectAudioElement el w = (Returns tt, w')
  ∧ el ∈ connectedElements (vars w')
  ∧ el_source (elements (host w') el) = true
  ∧ onplay (elements (host w') el) = Some (PlayingHandler el)
  ∧ truthy_string (crossOrigin (elements (host w') el)) = true
  ∧ ∃ c a s x n,
      audioContext (vars w') = Some c ∧ analyser (vars w') = Some a
      ∧ splitter (vars w') = Some s ∧ contexts (host w') !! c = Some x
      ∧ nodes (host w') !! n
        = Some {| node_context := c; node_kind := MediaElementAudioSourceNode el |}
      ∧ (n, 0, a) ∈ connections (host w')
      ∧ (n, 0, s) ∈ connections (host w')
      ∧ (a, 0, destination x) ∈ connections (host w').
Proof.
  intros HR Hw Hc Hel Hsrc. cbv zeta. cbn [run].
  destruct (connectAudioElement_wired w el win ctor HR Hw Hc Hel Hsrc)
    as (wi & c & a & s & x & _ & _ & Ha & Han & Hs & Hx & _ & _ & E).
  rewrite E. cbn [snd].
  destruct (default_crossOrigin_frame el (host wi)) as (F1 & _ & F3 & F4 & _).
  split; [done|]. split; [cbn; set_solver|].
  split; [cbn; by rewrite !bool_decide_eq_true_2|].
  split; [cbn; by rewrite !bool_decide_eq_true_2|].
  split.
  - cbn. rewrite !bool_decide_eq_true_2 by done. cbn.
    rewrite default_crossOrigin_value.
    by destruct (truthy_string (crossOrigin (elements (host wi) el))) eqn:Ht.
  - exists c, a, s, x, (next_node (host wi)).
    split; [exact Ha|]. split; [exact Han|]. split; [exact Hs|].
    split; [cbn; by rewrite F1|].
    split; [cbn; by rewrite F4, lookup_insert_eq|].
    cbn. rewrite F4. split; [|split].
    + apply add_connection_mono, add_connection_mono, add_connection_in.
    + apply add_connection_mono, add_connection_in.
    + apply add_connection_in.
Qed.

Lemma connectAudioElement_succeeds_witness :
  1%positive ∈ connectedElements (vars Examples.connected).
Proof.
  refine (proj1 (proj2 (connectAudioElement_succeeds Examples.ready 1%positive
                          _ StdAudioContext ready_reachable eq_refl eq_refl _ _))).
  - vm_compute. intros Hin. discriminate Hin.
  - reflexivity.
Defined.

(** X7: which calls register: after [connectAudioElement el] the element
    is in the registry exactly if it was there before, or the window has a
    constructor and the element was not bound to a source node. *)
Theorem connectAudioElement_registers_iff w el :
  Reachable w →
  el ∈ connectedElements (vars (run (call_connectAudioElement el) w))
  ↔ el ∈ connectedElements (vars w)
    ∨ ((∃ win ctor, window (env w) = Some win ∧ AudioCtor win = Some ctor)
       ∧ el_source (elements (host w) el) = false).
Proof.
  intros HR. pose proof (Reachable_Inv w HR) as HI. cbn [run].
  destruct (connectAudioElement_case el w HI) as (wi & w2 & Ei & HIi & E & C).
  destruct (initAudioContext_frame w _ wi Ei) as (Hreg & Hels & _).
  rewrite E. cbn [snd]. split.
  - intros Hin.
    destruct C as [ Hn | c Ha Hk | c a s Ha Han Hs Hnot Hb W | c a s x Ha Han Hs Hx Hnot Hb W ].
    + left. by rewrite <- Hreg.
    + left. by rewrite <- Hreg.
    + left. cbn in Hin. by rewrite <- Hreg.
    + right. split; [|by rewrite <- Hels].
      unfold Inv in HIi. rewrite Ha in HIi.
      destruct (gi_ctor _ _ _ _ HIi) as (win & ctor & Hw & Hc).
      exists win, ctor. split; [|done].
      pose proof (initAudioContext_case w) as C0. rewrite Ei in C0.
      inversion C0; subst; cbn in *; congruence.
  - intros [Hin | ((win & ctor & Hw & Hc) & Hsrc)].
    + destruct C as [ | | c a s Ha Han Hs Hnot Hb W | c a s x Ha Han Hs Hx Hnot Hb W ].
      * by rewrite Hreg.
      * by rewrite Hreg.
      * cbn. by rewrite Hreg.
      * cbn. rewrite Hreg. apply elem_of_union. by right.
    + destruct (decide (el ∈ connectedElements (vars w))) as [Hin|Hnot].
      * destruct C as [ | | c a s Ha Han Hs Hnot Hb W | c a s x Ha Han Hs Hx Hnot Hb W ].
        -- by rewrite Hreg.
        -- by rewrite Hreg.
        -- cbn. by rewrite Hreg.
        -- cbn. rewrite Hreg. apply elem_of_union. by right.
      * destruct (connectAudioElement_wired w el win ctor HR Hw Hc Hnot Hsrc)
          as (wi' & c & a & s & x & _ & _ & _ & _ & _ & _ & _ & _ & E').
        rewrite E in E'. inversion E'; subst. cbn. apply elem_of_union. left.
        by apply elem_of_singleton.
Qed.

Lemma connectAudioElement_registers_iff_witness :
  2%positive ∉ connectedElements (vars (run (call_connectAudioElement 2%positive) Examples.ready)).
Proof.
  intros Hin.
  apply (connectAudioElement_registers_iff Examples.ready 2%positive ready_reachable) in Hin.
  destruct Hin as [Hin | [_ Hsrc]].
  - vm_compute in Hin. discriminate Hin.
  - vm_compute in Hsrc. discriminate Hsrc.
Defined.

(** X8: what [connectAudioElement el] leaves alone, however it goes: every
    other element, the [id] of [el], a crossOrigin that [el] already has
    (only a missing or empty one may become "anonymous"), every element
    already registered; and the registry gains at most [el]. *)
Theorem connectAudioElement_frame w el :
  Reachable w →
  let w' := run (call_connectAudioElement el) w in
  (∀ x, x ≠ el → elements (host w') x = elements (host w) x)
  ∧ el_id (elements (host w') el) = el_id (elements (host w) el)
  ∧ (crossOrigin (elements (host w') el) = crossOrigin (elements (host w) el)
     ∨ (truthy_string (crossOrigin (elements (host w) el)) = false
        ∧ crossOrigin (elements (host w') el) = Some "anonymous"))
  ∧ connectedElements (vars w) ⊆ connectedElements (vars w')
  ∧ connectedElements (vars w') ⊆ {[el]} ∪ connectedElements (vars w).
Proof.
  intros HR. cbv zeta. cbn [run]. pose proof (Reachable_Inv w HR) as HI.
  destruct (connectAudioElement_case el w HI) as (wi & w2 & Ei & HIi & E & C).
  destruct (initAudioContext_frame w _ wi Ei) as (Hreg & Hels & _).
  destruct (default_crossOrigin_frame el (host wi))
    as (F1 & F2 & F3 & F4 & F5 & F6 & F7 & F8 & F9 & F10).
  pose proof (default_crossOrigin_value el (host wi)) as FV.
  rewrite E. cbn [snd].
  assert (Same : ∀ w0, elements (host w0) = elements (host w) →
                       connectedElements (vars w0) = connectedElements (vars w) →
    (∀ x, x ≠ el → elements (host w0) x = elements (host w) x)
    ∧ el_id (elements (host w0) el) = el_id (elements (host w) el)
    ∧ (crossOrigin (elements (host w0) el) = crossOrigin (elements (host w) el)
       ∨ (truthy_string (crossOrigin (elements (host w) el)) = false
          ∧ crossOrigin (elements (host w0) el) = Some "anonymous"))
    ∧ connectedElements (vars w) ⊆ connectedElements (vars w0)
    ∧ connectedElements (vars w0) ⊆ {[el]} ∪ connectedElements (vars w)).
  { intros w0 He Hr. rewrite He, Hr. repeat split; try done.
    - by left.
    - apply union_subseteq_r. }
  assert (CO : ∀ co, co = crossOrigin (elements (default_crossOrigin el (host wi)) el) →
                co = crossOrigin (elements (host wi) el)
                ∨ (truthy_string (crossOrigin (elements (host wi) el)) = false
                   ∧ co = Some "anonymous")).
  { intros co ->. rewrite FV.
    destruct (truthy_string (crossOrigin (elements (host wi) el))); [by left | by right]. }
  destruct C as [ | | c a s Ha Han Hs Hnot Hb W | c a s x Ha Han Hs Hx Hnot Hb W ].
  - by apply Same.
  - by apply Same.
  - change (host (refused el wi)) with (default_crossOrigin el (host wi)).
    change (vars (refused el wi)) with (vars wi).
    rewrite <- Hels, Hreg. split; [exact F10|]. split; [apply F8|].
    split; [by apply CO|]. split; [done | apply union_subseteq_r].
  - rewrite <- Hels. split; [|split; [|split; [|split]]].
    + intros y Hy. cbn. rewrite !bool_decide_eq_false_2 by done. by apply F10.
    + cbn. rewrite !bool_decide_eq_true_2 by done. cbn. apply F8.
    + apply CO. cbn. by rewrite !bool_decide_eq_true_2.
    + cbn. rewrite Hreg. apply union_subseteq_r.
    + cbn. by rewrite Hreg.
Qed.

Lemma connectAudioElement_frame_witness :
  elements (host Examples.connected) 2%positive
  = elements (host Examples.ready) 2%positive.
Proof.
  refine (proj1 (connectAudioElement_frame Examples.ready 1%positive ready_reachable)
            2%positive _).
  discriminate.
Defined.

Lemma connectAudioElement_unsupported w el win :
  Inv w → window (env w) = Some win → AudioCtor win = None →
  connectAudioElement el w = (Returns tt, emit (ConsoleError unsupported_message) w).
Proof.
  intros HI Hw Hc.
  assert (Hn : audioContext (vars w) = None).
  { unfold Inv in HI. destruct (audioContext (vars w)) as [c|]; [|done].
    destruct (gi_ctor _ _ _ _ HI) as (win' & ctor & Hw' & Hc'). congruence. }
  by rewrite (connectAudioElement_unfold el w None _
                (initAudioContext_no_ctor w win Hw Hn Hc)).
Qed.

Lemma connect_times_reachable el n w :
  Reachable w → Reachable (Nat.iter n (run (call_connectAudioElement el)) w).
Proof.
  intros HR. induction n as [|n IH]; [exact HR|].
  rewrite Nat.iter_succ. by apply reach_call.
Qed.

(** X9: where the graph cannot be had, [connectAudioElement] does nothing
    to the element or the registry, but it is silent only without a
    [window]: in a window without constructor every call logs the
    unsupported-browser error again, so [n] calls leave [n] error lines and
    nothing else. *)
Theorem connectAudioElement_unavailable w el n :
  Reachable w →
  match window (env w) with
  | None => Nat.iter n (run (call_connectAudioElement el)) w = w
  | Some win =>
      match AudioCtor win with
      | None =>
          Nat.iter n (run (call_connectAudioElement el)) w
          = {| env := env w; host := host w; vars := vars w;
               trace := trace w ++ replicate n (ConsoleError unsupported_message) |}
      | Some _ => True
      end
  end.
Proof.
  intros HR. destruct (window (env w)) as [win|] eqn:Hw.
  - destruct (AudioCtor win) eqn:Hc; [done|].
    induction n as [|n IH].
    + cbn. destruct w. cbn. by rewrite app_nil_r.
    + rewrite Nat.iter_succ.
      pose proof (Reachable_Inv _ (connect_times_reachable el n w HR)) as HIn.
      rewrite IH in *. cbn [run].
      rewrite (connectAudioElement_unsupported _ el win HIn Hw Hc).
      unfold emit. cbn [env host vars trace snd].
      rewrite replicate_S_end, app_assoc. reflexivity.
  - induction n as [|n IH]; [done|].
    rewrite Nat.iter_succ, IH. cbn [run].
    rewrite (connectAudioElement_unfold el w None w (initAudioContext_no_window w Hw)).
    reflexivity.
Qed.

Lemma connectAudioElement_unavailable_witness :
  Nat.iter 3 (run (call_connectAudioElement 1%positive))
    (initial_world Examples.old_browser Examples.page)
  = {| env := Examples.old_browser; host := Examples.page; vars := initial_vars;
       trace := replicate 3 (ConsoleError unsupported_message) |}.
Proof.
  exact (connectAudioElement_unavailable
           (initial_world Examples.old_browser Examples.page) 1%positive 3
           (reach_load Examples.old_browser Examples.page)).
Defined.

Lemma default_crossOrigin_twice el h :
  default_crossOrigin el (default_crossOrigin el h) = default_crossOrigin el h.
Proof.
  unfold default_crossOrigin at 1. rewrite default_crossOrigin_value.
  by destruct (truthy_string (crossOrigin (elements h el))) eqn:Ht; rewrite ?Ht.
Qed.

(** X10: a failed connection is not remembered.  With the graph built, a
    call for an unregistered element that is bound to a source node logs
    the warning and registers nothing; a second call tries again, fails
    again, and adds a second warning and nothing else. *)
Theorem failed_connection_retried w el c :
  Reachable w → audioContext (vars w) = Some c →
  el ∉ connectedElements (vars w) → el_source (elements (host w) el) = true →
  let w1 := run (call_connectAudioElement el) w in
  let w2 := run (call_connectAudioElement el) w1 in
  w1 = refused el w
  ∧ w2 = emit (ConsoleWarn wiring_warning InvalidStateError) w1
  ∧ el ∉ connectedElements (vars w2).
Proof.
  intros HR Hc Hel Hsrc. cbv zeta.
  assert (Step : ∀ w0, Reachable w0 → audioContext (vars w0) = Some c →
                       el ∉ connectedElements (vars w0) →
                       el_source (elements (host w0) el) = true →
                       run (call_connectAudioElement el) w0 = refused el w0).
  { intros w0 HR0 Hc0 Hel0 Hsrc0. pose proof (Reachable_Inv w0 HR0) as HI0.
    pose proof HI0 as G. unfold Inv in G. rewrite Hc0 in G.
    destruct G as [(win & ctor & Hw & _) _ _ (a & Ha & _) _ _ (s & Hs & _) _ _ _].
    cbn [run].
    rewrite (connectAudioElement_unfold el w0 (Some c) w0
               (initAudioContext_existing w0 win c Hw Hc0)), Ha, Hs.
    rewrite bool_decide_eq_false_2 by done.
    unfold try_catch. by rewrite (wiring_bound c a s el w0 Hsrc0). }
  rewrite (Step w HR Hc Hel Hsrc).
  destruct (default_crossOrigin_frame el (host w)) as (_ & _ & _ & _ & _ & _ & F7 & _).
  split; [done|].
  assert (E2 : run (call_connectAudioElement el) (refused el w)
               = emit (ConsoleWarn wiring_warning InvalidStateError) (refused el w)).
  { rewrite (Step (refused el w)).
    - apply World_eq; try reflexivity. cbn. apply default_crossOrigin_twice.
    - rewrite <- (Step w HR Hc Hel Hsrc). by apply reach_call.
    - exact Hc.
    - exact Hel.
    - cbn. by rewrite F7. }
  rewrite E2. split; [reflexivity | exact Hel].
Qed.

Lemma failed_connection_retried_witness :
  run (call_connectAudioElement 2%positive) Examples.ready
  = refused 2%positive Examples.ready.
Proof.
  refine (proj1 (failed_connection_retried Examples.ready 2%positive 0
                   ready_reachable _ _ _)).
  - vm_compute. reflexivity.
  - vm_compute. intros Hin. discriminate Hin.
  - reflexivity.
Defined.

(** ** Extraction *)

Lemma fill_full data array : length data = length array → fill data array = data.
Proof.
  intros H. unfold fill. rewrite take_ge by lia. rewrite drop_ge by lia.
  apply app_nil_r.
Qed.

Lemma fill_idem data array : fill data (fill data array) = fill data array.
Proof.
  unfold fill at 1. rewrite length_fill.
  destruct (decide (length array ≤ length data)) as [Hle|Hgt].
  - unfold fill. rewrite (drop_ge array) by lia. rewrite app_nil_r.
    rewrite drop_ge by (rewrite length_take; lia). apply app_nil_r.
  - unfold fill. rewrite (take_ge data) by lia. by rewrite drop_app_length.
Qed.

Lemma fill_nil data : fill data [] = [].
Proof. unfold fill. cbn. apply drop_nil. Qed.

Lemma frequency_data_512 h n c :
  nodes h !! n = Some (analyser_512 c) →
  frequency_data h n = resize 256 x00 (spectrum h n)
  ∧ length (frequency_data h n) = 256.
Proof.
  intros Hn. unfold frequency_data, binCount. rewrite Hn. cbn.
  split; [reflexivity | apply length_resize].
Qed.

(** X11: once the graph exists, [getAudioData] returns exactly what the
    main analyser sees at that moment, its 256 bins, with nothing left
    over from an earlier frame; the returned array is the module's buffer,
    and nothing else changes: not the host, not the trace, not the stereo
    buffers. *)
Theorem getAudioData_current w c :
  Reachable w → audioContext (vars w) = Some c →
  ∃ a, analyser (vars w) = Some a
       ∧ getAudioData w
         = (Returns (resize 256 x00 (spectrum (host w) a)),
            with_vars (set_dataArray (Some (resize 256 x00 (spectrum (host w) a)))) w).
Proof.
  intros HR Hc. pose proof (Reachable_Inv w HR) as HI. unfold Inv in HI. rewrite Hc in HI.
  destruct HI as [_ _ _ (a & Ha & _ & Han) _ _ _ (d & Hd & Hlen) _ _].
  destruct (frequency_data_512 (host w) a c Han) as [Ef Lf].
  exists a. split; [exact Ha|].
  rewrite (getAudioData_ready w a d Ha Hd), fill_full by lia. by rewrite Ef.
Qed.

Lemma getAudioData_current_witness :
  ∃ a, analyser (vars Examples.ready) = Some a
       ∧ getAudioData Examples.ready
         = (Returns (resize 256 x00 (spectrum (host Examples.ready) a)),
            with_vars (set_dataArray
                         (Some (resize 256 x00 (spectrum (host Examples.ready) a))))
              Examples.ready).
Proof.
  apply (getAudioData_current Examples.ready 0 ready_reachable). reflexivity.
Defined.

(** X12: extraction is repeatable: as long as the host has not moved, a
    second [getAudioData] returns the same bins as the first and leaves
    the world exactly as the first left it. *)
Theorem getAudioData_twice w :
  getAudioData (snd (getAudioData w)) = (fst (getAudioData w), snd (getAudioData w)).
Proof.
  destruct (analyser (vars w)) as [a|] eqn:Ha;
    [destruct (dataArray (vars w)) as [d|] eqn:Hd|].
  - rewrite (getAudioData_ready w a d Ha Hd). cbn [fst snd].
    rewrite (getAudioData_ready _ a (fill (frequency_data (host w) a) d)) by done.
    cbn [host with_vars]. rewrite fill_idem. reflexivity.
  - rewrite !(getAudioData_null w) by auto. cbn [fst snd].
    by rewrite (getAudioData_null w) by auto.
  - rewrite !(getAudioData_null w) by auto. cbn [fst snd].
    by rewrite (getAudioData_null w) by auto.
Qed.

Lemma in_byte_range_256 (sum : Z) :
  (0 ≤ sum ≤ 65280)%Z → in_byte_range (Num (Qred (Qmake sum 256))).
Proof.
  intros H. unfold in_byte_range. rewrite Qred_correct.
  unfold Qle. cbn [Qnum Qden]. lia.
Qed.

(** X13: [getAverageVolume] returns normally in every reachable world, a
    number between 0 and 255 (never NaN), and leaves the world as
    [getAudioData] would: it refreshes the mono buffer. *)
Theorem getAverageVolume_range w :
  Reachable w →
  ∃ v, getAverageVolume w = (Returns v, snd (getAudioData w)) ∧ in_byte_range v.
Proof.
  intros HR. pose proof (Reachable_Inv w HR) as HI. rewrite getAverageVolume_unfold.
  destruct (audioContext (vars w)) as [c|] eqn:Hc.
  - unfold Inv in HI. rewrite Hc in HI.
    destruct HI as [_ _ _ (a & Ha & _) _ _ _ (d & Hd & Hlen) _ _].
    rewrite (getAudioData_ready w a d Ha Hd). cbn [snd].
    set (data := fill (frequency_data (host w) a) d).
    assert (Hl : length data = 256) by (unfold data; by rewrite length_fill).
    destruct (js_div_256 data Hl) as (J & R & _).
    eexists. split; [reflexivity|].
    unfold average. rewrite sum_loop_sum, J, Hl. cbn [Nat.eqb].
    by apply in_byte_range_256.
  - rewrite getAudioData_null
      by (left; by rewrite (Inv_null_graph w HI Hc)).
    eexists. split; [reflexivity|]. cbn. split; unfold Qle; cbn; lia.
Qed.

Lemma getAverageVolume_range_witness :
  ∃ v, getAverageVolume Examples.ready = (Returns v, snd (getAudioData Examples.ready))
       ∧ in_byte_range v.
Proof.
  exact (getAverageVolume_range Examples.ready ready_reachable).
Defined.

(** X14: [getStereoData] returns, in every reachable world, two numbers
    between 0 and 255; it touches neither the host, nor the trace, nor the
    mono buffer, nor the registry. *)
Theorem getStereoData_range w :
  Reachable w →
  ∃ sd w', getStereoData w = (Returns sd, w')
           ∧ in_byte_range (left sd) ∧ in_byte_range (right sd)
           ∧ env w' = env w ∧ host w' = host w ∧ trace w' = trace w
           ∧ dataArray (vars w') = dataArray (vars w)
           ∧ connectedElements (vars w') = connectedElements (vars w).
Proof.
  intros HR. pose proof (Reachable_Inv w HR) as HI.
  destruct (audioContext (vars w)) as [c|] eqn:Hc.
  - unfold Inv in HI. rewrite Hc in HI.
    destruct HI as [_ _ _ _ (l & Hl & _) (r & Hr & _) _ _ (oldL & HdL & HLl) (oldR & HdR & HRl)].
    set (dl := fill (frequency_data (host w) l) oldL).
    set (dr := fill (frequency_data (host w) r) oldR).
    assert (Ll : length dl = 256) by (unfold dl; by rewrite length_fill).
    assert (Lr : length dr = 256) by (unfold dr; by rewrite length_fill).
    destruct (js_div_256 dl Ll) as (Jl & Rl & _).
    destruct (js_div_256 dr Lr) as (Jr & Rr & _).
    rewrite (getStereoData_ready w l r oldL oldR Hl Hr HdL HdR).
    rewrite !reduce_add_sum. fold dl dr.
    rewrite Ll in Jl. rewrite Lr in Jr. rewrite HLl, HRl, Jl, Jr.
    eexists _, _. split; [reflexivity|]. cbn [left right].
    split; [by apply in_byte_range_256|]. split; [by apply in_byte_range_256|]. done.
  - rewrite getStereoData_null by (left; by rewrite (Inv_null_graph w HI Hc)).
    eexists _, _. split; [reflexivity|]. cbn.
    repeat split; unfold Qle; cbn; lia.
Qed.

Lemma getStereoData_range_witness :
  ∃ sd w', getStereoData Examples.connected = (Returns sd, w')
           ∧ in_byte_range (left sd) ∧ in_byte_range (right sd).
Proof.
  destruct (getStereoData_range Examples.connected connected_reachable)
    as (sd & w' & E & Hl & Hr & _).
  exists sd, w'. exact (conj E (conj Hl Hr)).
Defined.

Lemma average_reduce b data :
  average (b :: data) = js_div (reduce_add (b :: data)) (length (b :: data)).
Proof.
  unfold average. cbn [length Nat.eqb]. by rewrite sum_loop_sum, reduce_add_sum.
Qed.

(** X15: the loop of [getAverageVolume] and the [reduce] of [getStereoData]
    agree: when, with the graph built, the three analysers see the same
    bins (a mono signal), the left average, the right average and the
    average volume are one and the same number. *)
Theorem mono_signal_agrees w c a l r :
  Reachable w → audioContext (vars w) = Some c →
  analyser (vars w) = Some a → analyserL (vars w) = Some l →
  analyserR (vars w) = Some r →
  spectrum (host w) l = spectrum (host w) a →
  spectrum (host w) r = spectrum (host w) a →
  ∃ v, fst (getAverageVolume w) = Returns v
       ∧ fst (getStereoData w) = Returns {| left := v; right := v |}.
Proof.
  intros HR Hc Ha Hl Hr Sl Sr.
  pose proof (Reachable_Inv w HR) as HI. unfold Inv in HI. rewrite Hc in HI.
  destruct HI as [_ _ _ (a' & Ha' & _ & Han) (l' & Hl' & _ & Hln) (r' & Hr' & _ & Hrn) _
                    (d & Hd & Hlen) (dl & HdL & HLl) (dr & HdR & HRl)].
  assert (a' = a) as -> by congruence.
  assert (l' = l) as -> by congruence.
  assert (r' = r) as -> by congruence.
  destruct (frequency_data_512 (host w) a c Han) as [Ea La].
  destruct (frequency_data_512 (host w) l c Hln) as [El Ll].
  destruct (frequency_data_512 (host w) r c Hrn) as [Er Lr].
  rewrite getAverageVolume_unfold, (getAudioData_ready w a d Ha Hd).
  rewrite (getStereoData_ready w l r dl dr Hl Hr HdL HdR). cbn [fst].
  rewrite !fill_full by lia. rewrite El, Er, Sl, Sr, <- Ea.
  rewrite HLl, HRl, <- La.
  destruct (frequency_data (host w) a) as [|b data] eqn:Ef; [discriminate La|].
  exists (average (b :: data)). split; [reflexivity|].
  by rewrite <- average_reduce.
Qed.

Lemma mono_signal_agrees_witness :
  ∃ v, fst (getAverageVolume Examples.ready) = Returns v
       ∧ fst (getStereoData Examples.ready) = Returns {| left := v; right := v |}.
Proof.
  apply (mono_signal_agrees Examples.ready 0 1 2 3 ready_reachable); reflexivity.
Defined.

(** X16: the guard against an empty buffer exists in [getAverageVolume]
    only.  In a world (not a reachable one) whose buffers are empty,
    [getAverageVolume] returns 0, while [getStereoData] divides 0 by 0 and
    returns NaN. *)
Theorem empty_buffer_edge :
  (∀ w a, analyser (vars w) = Some a → dataArray (vars w) = Some [] →
          fst (getAverageVolume w) = Returns (Num 0))
  ∧ (∀ w l r, analyserL (vars w) = Some l → analyserR (vars w) = Some r →
              dataArrayL (vars w) = Some [] → dataArrayR (vars w) = Some [] →
              fst (getStereoData w) = Returns {| left := NaN; right := NaN |}).
Proof.
  split.
  - intros w a Ha Hd.
    by rewrite getAverageVolume_unfold, (getAudioData_ready w a [] Ha Hd), fill_nil.
  - intros w l r Hl Hr HdL HdR.
    by rewrite (getStereoData_ready w l r [] [] Hl Hr HdL HdR), !fill_nil.
Qed.

Lemma empty_buffer_edge_witness :
  fst (getAverageVolume (emptied Examples.ready)) = Returns (Num 0)
  ∧ fst (getStereoData (emptied Examples.ready)) = Returns {| left := NaN; right := NaN |}.
Proof.
  split.
  - apply (proj1 empty_buffer_edge _ 1); reflexivity.
  - apply (proj2 empty_buffer_edge _ 2 3); reflexivity.
Defined.

(** ** The life of the module *)

Lemma reaches_Reachable w w' : Reachable w → reaches w w' → Reachable w'.
Proof.
  intros HR H. induction H as [ | c w' _ IH | h' w' _ IH Hs | d d' w' _ IH Hd Hlen ].
  - exact HR.
  - by apply reach_call.
  - by apply reach_host.
  - by eapply reach_write.
Qed.

Lemma same_graph_trans m1 m2 m3 : same_graph m1 m2 → same_graph m2 m3 → same_graph m1 m3.
Proof.
  intros [A1 A2 A3 A4 A5 A6 A7 A8 A9] [B1 B2 B3 B4 B5 B6 B7 B8 B9].
  constructor; congruence.
Qed.

Lemma keeps_refl w : keeps w w.
Proof.
  split; [done|]. split; [intros _; apply same_graph_refl|]. split; [done|].
  exists []. by rewrite app_nil_r.
Qed.

Lemma keeps_trans w1 w2 w3 : keeps w1 w2 → keeps w2 w3 → keeps w1 w3.
Proof.
  intros (E1 & G1 & R1 & t1 & T1) (E2 & G2 & R2 & t2 & T2).
  split; [congruence|]. split; [|split].
  - intros Hs. pose proof (G1 Hs) as S1.
    eapply same_graph_trans; [exact S1|]. apply G2.
    rewrite (sg_audioContext _ _ S1). exact Hs.
  - by etrans.
  - exists (t1 ++ t2). by rewrite T2, T1, app_assoc.
Qed.

Lemma keeps_init_step w wi : init_step w wi → keeps w wi.
Proof.
  intros [ | win Hw Hn Hc | win ctor Hw Hn Hc ].
  - apply keeps_refl.
  - split; [done|]. split; [intros _; apply same_graph_refl|]. split; [done|].
    by eexists.
  - split; [done|]. split; [|split; [done | by eexists]].
    rewrite Hn. intros [? ?]. done.
Qed.

Lemma keeps_rest_step wi w' : rest_step wi w' → keeps wi w'.
Proof.
  intros [w'' t He Hh Hs Hr Ht Hq | el w'' C].
  - split; [done|]. split; [done|]. split; [by rewrite Hr | by exists t].
  - destruct C as [ | | c a s Hc Ha Hs Hel Hsrc W | c a s x Hc Ha Hs Hx Hel Hsrc W ].
    + apply keeps_refl.
    + apply keeps_refl.
    + split; [done|]. split; [intros _; apply same_graph_refl|]. split; [done|].
      by eexists.
    + split; [done|]. split; [intros _; by constructor|].
      split; [apply union_subseteq_r | by eexists].
Qed.

(** X17: nothing is ever undone.  From a reachable world on, whatever
    calls, play events and host steps follow: the environment is the same,
    the trace only grows, registered elements stay registered, and if the
    graph exists its context, analysers and splitter never change, the
    ready flag stays true and the three buffers keep their lengths. *)
Theorem lifetime_monotone w w' :
  Reachable w → reaches w w' →
  env w' = env w
  ∧ (∃ t, trace w' = trace w ++ t)
  ∧ connectedElements (vars w) ⊆ connectedElements (vars w')
  ∧ (is_Some (audioContext (vars w)) →
     audioContext (vars w') = audioContext (vars w)
     ∧ analyser (vars w') = analyser (vars w)
     ∧ analyserL (vars w') = analyserL (vars w)
     ∧ analyserR (vars w') = analyserR (vars w)
     ∧ splitter (vars w') = splitter (vars w)
     ∧ isAudioContextReady (vars w') = true
     ∧ length <$> dataArray (vars w') = length <$> dataArray (vars w)
     ∧ length <$> dataArrayL (vars w') = length <$> dataArrayL (vars w)
     ∧ length <$> dataArrayR (vars w') = length <$> dataArrayR (vars w)).
Proof.
  intros HR H.
  assert (K : keeps w w').
  { induction H as [ | c w' H IH | h' w' H IH Hs | d d' w' H IH Hd Hlen ].
    - apply keeps_refl.
    - pose proof (Reachable_Inv w' (reaches_Reachable w w' HR H)) as HI.
      destruct (run_steps c w' HI) as (wi & Hi & _ & Hr).
      eapply keeps_trans; [exact IH|].
      eapply keeps_trans; [by apply keeps_init_step | by apply keeps_rest_step].
    - eapply keeps_trans; [exact IH|].
      split; [done|]. split; [intros _; apply same_graph_refl|]. split; [done|].
      exists []. cbn. by rewrite app_nil_r.
    - eapply keeps_trans; [exact IH|].
      split; [done|]. split; [|split; [done | exists []; cbn; by rewrite app_nil_r]].
      intros _. constructor; try reflexivity. cbn. rewrite Hd. cbn. congruence. }
  destruct K as (E & G & R & T). split; [exact E|]. split; [exact T|]. split; [exact R|].
  intros Hs. destruct (G Hs) as [S1 S2 S3 S4 S5 S6 S7 S8 S9].
  repeat split; try done.
  rewrite S1. pose proof (Reachable_Inv w HR) as HI. unfold Inv in HI.
  destruct Hs as [c Hc]. rewrite Hc in HI. apply (gi_ready _ _ _ _ HI).
Qed.

Lemma lifetime_monotone_witness :
  ∃ t, trace Examples.connected = trace Examples.ready ++ t.
Proof.
  refine (proj1 (proj2 (lifetime_monotone Examples.ready Examples.connected
                          ready_reachable _))).
  apply reaches_call, reaches_refl.
Defined.

(** ** The playback-start observer, again *)

Lemma resumeAudioContext_eq w :
  Inv w →
  resumeAudioContext w
  = (Returns tt,
     match suspended_context w with
     | Some c => emit (ResumeRequest c) w
     | None => w
     end).
Proof.
  intros HI. unfold suspended_context. unfold Inv in HI.
  destruct (audioContext (vars w)) as [c|] eqn:Hc.
  - destruct (gi_ctx _ _ _ _ HI) as (x & Hx & _). rewrite Hx.
    destruct (state x) eqn:Hs.
    + by apply (resumeAudioContext_suspended w c x).
    + apply (resumeAudioContext_other w c x); congruence.
    + apply (resumeAudioContext_other w c x); congruence.
  - by apply resumeAudioContext_null.
Qed.

(** X18: the closure [connectAudioElement] installs, when a [play] event
    calls it: it returns normally, logs the playing line with the id the
    element has at that moment, and then asks the context to resume if,
    and only if, the context is suspended; it changes nothing else. *)
Theorem play_resumes_suspended w el el' :
  Reachable w → onplay (elements (host w) el) = Some (PlayingHandler el') →
  fire_play el w
  = (Returns tt,
     {| env := env w; host := host w; vars := vars w;
        trace := trace w
                 ++ ConsoleLog ("▶️ Audio element playing: "
                                +:+ el_id (elements (host w) el'))
                 :: match suspended_context w with
                    | Some c => [ResumeRequest c]
                    | None => []
                    end |}).
Proof.
  intros HR Hon. pose proof (Reachable_Inv w HR) as HI.
  rewrite fire_play_unfold, Hon, run_handler_playing.
  rewrite resumeAudioContext_eq by exact HI.
  change (suspended_context (emit (ConsoleLog (playing_message el' w)) w))
    with (suspended_context w).
  f_equal. destruct (suspended_context w); apply World_eq; try reflexivity.
  - cbn. by rewrite <- app_assoc.
Qed.

Lemma play_resumes_suspended_witness :
  fire_play 1%positive Examples.connected
  = (Returns tt,
     {| env := env Examples.connected; host := host Examples.connected;
        vars := vars Examples.connected;
        trace := trace Examples.connected
                 ++ [ConsoleLog "▶️ Audio element playing: player"; ResumeRequest 0] |}).
Proof.
  assert (Hon : onplay (elements (host Examples.connected) 1%positive)
                = Some (PlayingHandler 1%positive)) by reflexivity.
  exact (play_resumes_suspended Examples.connected 1%positive 1%positive
           connected_reachable Hon).
Defined.
